(** * Mask Regional Prompter: core logic of [scripts/rp_core.py]

    A shallow embedding of the colour allocator, the region codec, mask
    ingestion, the hook manager, the control flow of the attention
    compositor and the script entry points of [scripts/mask_rp.py], with
    the properties of the design document proved (or refuted) against it.

    Numeric conventions.  The Python code computes hues and the feature
    scale in binary floating point.  Every hue the allocator produces is a
    dyadic rational [k / 2^c] with a small numerator, and every product
    taken on it ([h * 6.0], [v * (1.0 - s * f)], [* 256]) is again such a
    number, so these operations are exact in IEEE double precision for all
    indices below [2^40]; they are modelled by exact rationals ([Q]).
    [np.ceil (np.log2 k)] on a positive integer [k] is modelled by
    [Z.log2_up k], and [math.ceil (math.log2 (math.sqrt (a / b)))] by the
    least integer [s] with [a <= 4^s * b]; theorem
    [derive_scale_is_ceil_log2_sqrt] relates the latter to the real-number
    formula. *)

From Stdlib Require Import Reals Lra.
From Stdlib Require Import ZArith QArith Qround Qpower Qfield List Bool Lia String.
From Stdlib Require Import DecimalString.
From Stdlib Require Lqa.
Import ListNotations.

Local Open Scope Z_scope.

(** ** Constants *)

Definition MAXCOLREG : Z := 359.
Definition CCHANNELS : Z := 3.
Definition CBLACK : Z := 255.
Definition TOKENSCON : Z := 77.

(** An RGB triple with 8-bit channels; an image is a list of rows. *)
Definition colour : Type := Z * Z * Z.
Definition image : Type := list (list colour).
Definition COLWHITE : colour := (255, 255, 255).

Definition colour_eqb (a b : colour) : bool :=
  let '(r1, g1, b1) := a in
  let '(r2, g2, b2) := b in
  (r1 =? r2) && (g1 =? g2) && (b1 =? b2).

(** ** Exceptions *)

Inductive exn : Type :=
| ZeroDivisionError
| ValueError
| IndexError
| TypeError
| AttributeError
| RecursionError
| CvError.

Inductive outcome (A : Type) : Type :=
| Ret (a : A)
| Raise (e : exn).
Arguments Ret {A} a.
Arguments Raise {A} e.

Definition bind {A B : Type} (m : outcome A) (k : A -> outcome B) : outcome B :=
  match m with
  | Ret a => k a
  | Raise e => Raise e
  end.

Notation "x <- m ;; k" := (bind m (fun x => k))
  (at level 61, m at next level, right associativity).

(** ** Colour allocator *)

Module Allocator.

(** [int(x)] on a float: truncation towards zero. *)
Definition Qtrunc (q : Q) : Z :=
  if Qle_bool 0 q then Qfloor q else Qceiling q.

(** Python's float [a % b]. *)
Definition Qmod (a b : Q) : Q :=
  (a - b * inject_Z (Qfloor (a / b)))%Q.

(** [2 ** z] for a float exponent holding the integer [z]. *)
Definition pow2 (z : Z) : Q := Qpower 2 z.

(** [colorsys.hsv_to_rgb]. *)
Definition hsv_to_rgb (h s v : Q) : Q * Q * Q :=
  if Qeq_bool s 0 then (v, v, v)
  else
    let i := Qtrunc (h * 6) in
    let f := (h * 6 - inject_Z i)%Q in
    let p := (v * (1 - s))%Q in
    let q := (v * (1 - s * f))%Q in
    let t := (v * (1 - s * (1 - f)))%Q in
    let i := i mod 6 in
    if i =? 0 then (v, t, p)
    else if i =? 1 then (q, v, p)
    else if i =? 2 then (p, v, t)
    else if i =? 3 then (p, q, v)
    else if i =? 4 then (t, p, v)
    else (v, p, q).

(** [.astype(np.uint8)]: truncate, then wrap to 8 bits. *)
Definition to_uint8 (q : Q) : Z := Qtrunc q mod 256.

(** One entry of [lrgb_arr]: [(hsv_to_rgb(h, 0.5, 0.5) * (CBLACK + 1)).astype(np.uint8)]. *)
Definition quantise (h : Q) : colour :=
  let '(r, g, b) := hsv_to_rgb h (1 # 2) (1 # 2) in
  let k := inject_Z (CBLACK + 1) in
  (to_uint8 (r * k), to_uint8 (g * k), to_uint8 (b * k)).

(** The loop state [(pcyc, cval, dlt)]. *)
Record cycle : Type := mkCycle { pcyc : Z; cval : Q; dlt : Q }.

Definition initial : cycle := mkCycle (-1) 0 0.

(** The state rebuilt from the length [st > 0] of an existing sequence. *)
Definition resumed (st : Z) : cycle :=
  let pc := Z.log2_up st in
  let d := (1 / pow2 pc)%Q in
  mkCycle pc (d + 2 * d * (Qmod (inject_Z st) (pow2 (pc - 1)) - 1))%Q d.

(** One iteration of the loop body at index [i]. *)
Definition step (i : Z) (c : cycle) : cycle :=
  let ccyc := Z.log2_up (i + 1) in
  if ccyc =? 0 then mkCycle ccyc 0 (dlt c)
  else if negb (pcyc c =? ccyc) then
    let d := (1 / pow2 ccyc)%Q in mkCycle ccyc d d
  else mkCycle (pcyc c) (cval c + 2 * dlt c)%Q (dlt c).

(** [for i in range(i, i + k): ...; lhsv.append(cval)]. *)
Fixpoint hue_loop (k : nat) (i : Z) (c : cycle) : list Q :=
  match k with
  | O => []
  | S k' => let c' := step i c in cval c' :: hue_loop k' (i + 1) c'
  end.

(** [lhsv] for [range(st, n)]. *)
Definition lhsv (st n : Z) (c : cycle) : list Q :=
  hue_loop (Z.to_nat (n - st)) st c.

Definition len {A : Type} (l : list A) : Z := Z.of_nat (List.length l).

Definition deterministic_colours (n : Z) (lcol : option (list colour))
  : option (list colour) :=
  if n <=? 0 then None
  else
    match lcol with
    | None => Some (map quantise (lhsv 0 n initial))
    | Some l =>
        if n <=? len l then Some l
        else
          let st := len l in
          let c := if st >? 0 then resumed st else initial in
          Some (l ++ map quantise (lhsv st n c))
    end.

(** The hues behind the first [n] entries of a fresh allocation. *)
Definition hues (n : Z) : list Q := lhsv 0 n initial.

End Allocator.

Import Allocator.

(** ** Process-wide state *)

(** [REGUSE] is a Python dict: insertion-ordered, assignment to an existing
    key keeps its position. *)
Definition registry : Type := list (Z * colour).

Fixpoint dict_set (k : Z) (v : colour) (d : registry) : registry :=
  match d with
  | [] => [(k, v)]
  | (k', v') :: rest =>
      if k =? k' then (k, v) :: rest else (k', v') :: dict_set k v rest
  end.

Definition dict_values (d : registry) : list colour := map snd d.

(** [VARIANT] only ever holds 0 or 1 (it starts at 0 and is assigned
    [1 - VARIANT] or 0), so it is kept as a boolean: [true] is 1. *)
Record Globals : Type := mkGlobals {
  COLREG : option (list colour);
  REGUSE : registry;
  VARIANT : bool
}.

Definition set_COLREG (c : option (list colour)) (g : Globals) : Globals :=
  mkGlobals c (REGUSE g) (VARIANT g).
Definition set_REGUSE (r : registry) (g : Globals) : Globals :=
  mkGlobals (COLREG g) r (VARIANT g).
Definition set_VARIANT (v : bool) (g : Globals) : Globals :=
  mkGlobals (COLREG g) (REGUSE g) v.

(** [a[i]] on a possibly absent array, with Python's negative indices. *)
Definition subscript {A : Type} (a : option (list A)) (i : Z) : outcome A :=
  match a with
  | None => Raise TypeError
  | Some l =>
      let j := if i <? 0 then len l + i else i in
      if j <? 0 then Raise IndexError
      else match nth_error l (Z.to_nat j) with
           | Some x => Ret x
           | None => Raise IndexError
           end
  end.

(** ** Region codec *)

Module Codec.

(** A mask: one number per pixel. *)
Definition mask : Type := list (list Z).

Definition shape0 {A : Type} (img : list (list A)) : Z := len img.
Definition shape1 {A : Type} (img : list (list A)) : Z :=
  match img with
  | [] => 0
  | row :: _ => len row
  end.

(** [np.zeros((h, w, 3), uint8) + CBLACK]. *)
Definition white_canvas (h w : Z) : image :=
  repeat (repeat COLWHITE (Z.to_nat w)) (Z.to_nat h).

Definition create_canvas (g : Globals) (h w : Z) (indwipe : bool)
  : Globals * image :=
  let v := negb (VARIANT g) in
  let g1 := set_VARIANT v g in
  let g2 := if indwipe then set_REGUSE [] g1 else g1 in
  let pad := if v then 1 else 0 in
  (g2, white_canvas (h + pad) (w + pad)).

(** [a[:-VARIANT, :-VARIANT, :CCHANNELS]] when [VARIANT != 0], else
    [a[:, :, :CCHANNELS]]. *)
Definition strip (v : bool) (a : image) : image :=
  if v then map (@removelast colour) (removelast a) else a.

(** [skimg[:h, :w, :] = img2]: the rows of [img2] written over the
    top-left corner of [skimg]. *)
Fixpoint paste_row (src dst : list colour) : list colour :=
  match src, dst with
  | s :: src', _ :: dst' => s :: paste_row src' dst'
  | _, _ => dst
  end.

Fixpoint paste (src dst : image) : image :=
  match src, dst with
  | s :: src', d :: dst' => paste_row s d :: paste src' dst'
  | _, _ => dst
  end.

(** The authoring state handed over by the editor: [img["image"]] and
    [img["mask"]], either of which may be [None]. *)
Record strokes : Type := mkStrokes {
  stroke_image : option image;
  stroke_mask : option image
}.

(** [a[:-VARIANT, :-VARIANT, :CCHANNELS]] (or [a[:, :, :CCHANNELS]]) on an
    entry of the editor dict: [None] is not subscriptable.  The tests
    [is None] of lines 212-215 come after the slicing and are never
    reached with [None]. *)
Definition slice (v : bool) (a : option image) : outcome image :=
  match a with
  | Some a => Ret (strip v a)
  | None => Raise TypeError
  end.

Section DetectPolygons.

(** Lines 217-218: the stroke layer is binarised and its contours are
    found ([cv2.cvtColor], [cv2.findContours]).  Both are OpenCV and are
    taken as given; they raise [cv2.error] on a layer they cannot
    convert, an empty one for instance. *)
Variable contours : Type.
Variable find_contours : image -> outcome contours.

(** Lines 229-233: each contour is simplified and filtered by area, and
    the survivors are filled with [color] onto [out]; OpenCV again. *)
Variable fill_contours : image -> contours -> colour -> outcome image.

Definition detect_polygons (g : Globals) (img : strokes) (num : Z)
  : outcome (Globals * image * Z) :=
  out <- slice (VARIANT g) (stroke_image img) ;;
  mask_layer <- slice (VARIANT g) (stroke_mask img) ;;
  cnts <- find_contours mask_layer ;;
  gc <- (if num <? 0 then Ret (g, COLWHITE)
         else
           let colreg := deterministic_colours (num + 1) (COLREG g) in
           color <- subscript colreg num ;;
           Ret (mkGlobals colreg (dict_set num color (REGUSE g)) (VARIANT g),
                color)) ;;
  let '(g1, color) := gc in
  img2 <- fill_contours out cnts color ;;
  let '(g2, skimg) := create_canvas g1 (shape0 img2) (shape1 img2) false in
  let skimg := paste img2 skimg in
  Ret (g2, skimg,
       if (num >=? 0) && (num + 1 <=? CBLACK) then num + 1 else num).

End DetectPolygons.

(** The canvas argument of [detect_mask]: an array, a dict (of which
    only [.get("image")] is read), or [None]. *)
Inductive canvas : Type :=
| Array (a : image)
| Dict (entry : option image)
| Absent.

Definition canvas_image (c : canvas) : option image :=
  match c with
  | Array a => Some a
  | Dict e => e
  | Absent => None
  end.

(** [(~(img == color_arr)).all(-1).all(-1)] with [img] of shape
    [(H, W, 3, 1)] and [color_arr] of shape [(1, 1, 3, k)]: the
    comparison is per channel and per registered colour, negated, and
    then reduced over the colours and over the channels. *)
Definition channels (c : colour) : list Z :=
  let '(r, g, b) := c in [r; g; b].

Definition unclaimed (cols : list colour) (px : colour) : bool :=
  forallb
    (fun ch : nat =>
       forallb
         (fun c : colour =>
            negb (nth ch (channels px) 0 =? nth ch (channels c) 0))
         cols)
    [0%nat; 1%nat; 2%nat].

Definition scale_mask (mult : Z) (b : list (list bool)) : mask :=
  map (map (fun x : bool => if x then mult else 0)) b.

Definition mask_sum (m : mask) : Z :=
  fold_right Z.add 0 (map (fold_right Z.add 0) m).

Definition detect_mask (g : Globals) (img : canvas) (num : Z) (mult : Z)
  : outcome (Globals * option mask) :=
  match canvas_image img with
  | None => Ret (g, None)
  | Some img =>
      if num <? 0 then
        let color_arr := dict_values (REGUSE g) in
        if len color_arr =? 0
        then Ret (g, Some (map (map (fun _ : colour => 1 * mult)) img))
        else Ret (g, Some (scale_mask mult (map (map (unclaimed color_arr)) img)))
      else
        color_arr <- subscript (deterministic_colours (num + 1) None) (-1) ;;
        let m := scale_mask mult (map (map (colour_eqb color_arr)) img) in
        let g' := if (mask_sum m >? 0) && (num >=? 0)
                  then set_REGUSE (dict_set num color_arr (REGUSE g)) g
                  else g in
        Ret (g', Some m)
  end.

(** The mask the design document asks for when [num < 0]: [mult] where
    the pixel's colour equals no registered colour, 0 elsewhere. *)
Definition unclaimed_spec (cols : list colour) (px : colour) : bool :=
  forallb (fun c : colour => negb (colour_eqb px c)) cols.

End Codec.

Import Codec.

(** ** Mask ingestion *)

(** A device tensor of shape [(1, H, W)] holding half-precision 0/1
    values.  Sums of such values are integers; half precision saturates
    at 2048 instead of growing further, which [np.clip (tm, 0, 1)] cannot
    see, so the entries are kept as exact integers. *)
Definition mask_tensor : Type := list (list (list Z)).

Record Processor : Type := mkProcessor {
  height : Z;
  width : Z;
  batch_size : Z;
  is_forge : bool;
  is_reforge : bool;
  regmasks : list mask_tensor;
  regbase : option mask_tensor;
  hooked : bool;
  active : bool
}.

Definition set_hooked (b : bool) (p : Processor) : Processor :=
  mkProcessor (height p) (width p) (batch_size p) (is_forge p) (is_reforge p)
              (regmasks p) (regbase p) b (active p).

Module Ingestion.

(** The [mask_image] argument: an [(H, W, 3)] array or an [(H, W)] one. *)
Inductive mask_input : Type :=
| RGB (a : image)
| Gray (a : list (list Z)).

(** [np.stack([mask_image] * 3, axis=-1)] for a two-dimensional input. *)
Definition to_rgb (m : mask_input) : image :=
  match m with
  | RGB a => a
  | Gray a => map (map (fun v : Z => (v, v, v))) a
  end.

(** [np.all(np.abs(px.astype(int16) - color.astype(int16)) < 10, axis=-1)]
    at one pixel. *)
Definition close_to (color px : colour) : bool :=
  let '(r, g, b) := px in
  let '(cr, cg, cb) := color in
  (Z.abs (r - cr) <? 10) && (Z.abs (g - cg) <? 10) && (Z.abs (b - cb) <? 10).

Definition color_match (img : image) (color : colour) : list (list bool) :=
  map (map (close_to color)) img.

(** [np.any] / [m.any()]. *)
Definition any (m : list (list bool)) : bool :=
  existsb (existsb (fun b : bool => b)) m.

(** [for c in range(int(layer_count))]. *)
Definition range (n : Z) : list Z :=
  map Z.of_nat (seq 0 (Z.to_nat n)).

(** The first loop: the detected regions and the updated registry. *)
Fixpoint detect (colreg : option (list colour)) (img : image)
         (ids : list Z) (reguse : registry)
  : outcome (list (Z * list (list bool)) * registry) :=
  match ids with
  | [] => Ret ([], reguse)
  | c :: rest =>
      color <- subscript colreg c ;;
      let cm := color_match img color in
      if any cm then
        r <- detect colreg img rest (dict_set c color reguse) ;;
        Ret ((c, cm) :: fst r, snd r)
      else detect colreg img rest reguse
  end.

(** [color_match.astype(np.float16)]. *)
Definition astype_float (m : list (list bool)) : list (list Z) :=
  map (map (fun b : bool => if b then 1 else 0)) m.

Definition zeros_like (m : list (list Z)) : list (list Z) :=
  map (map (fun _ : Z => 0)) m.

Definition zip_with {A B C : Type} (f : A -> B -> C) (a : list A) (b : list B)
  : list C :=
  map (fun ab : A * B => f (fst ab) (snd ab)) (combine a b).

(** [tm + m], elementwise on equal shapes. *)
Definition add_masks (a b : list (list Z)) : list (list Z) :=
  zip_with (zip_with Z.add) a b.

Definition mask_any (m : list (list Z)) : bool :=
  existsb (existsb (fun v : Z => negb (v =? 0))) m.

(** [m.reshape([1, *m.shape])]. *)
Definition unsqueeze (m : list (list Z)) : mask_tensor := [m].

(** The second loop: the running sum [tm] and [self.regmasks]. *)
Fixpoint accumulate (detected : list (Z * list (list bool)))
         (tm : option (list (list Z))) (regs : list mask_tensor)
  : option (list (list Z)) * list mask_tensor :=
  match detected with
  | [] => (tm, regs)
  | (_, cm) :: rest =>
      let m := astype_float cm in
      if mask_any m then
        let tm0 := match tm with
                   | None => zeros_like m
                   | Some t => t
                   end in
        accumulate rest (Some (add_masks tm0 m)) (regs ++ [unsqueeze m])
      else accumulate rest tm regs
  end.

(** [np.clip(v, 0, 1)] and [1 - np.clip(tm, 0, 1)]. *)
Definition clip01 (v : Z) : Z := Z.min (Z.max v 0) 1.
Definition complement (tm : list (list Z)) : list (list Z) :=
  map (map (fun v : Z => 1 - clip01 v)) tm.

Definition setup_masks (g : Globals) (self : Processor)
           (mask_image : option mask_input) (layer_count : Z)
  : outcome (Globals * Processor) :=
  match mask_image with
  | None => Ret (g, self)
  | Some mi =>
      let img := to_rgb mi in
      let colreg :=
        deterministic_colours (Z.max (layer_count + 1) MAXCOLREG) (COLREG g) in
      d <- detect colreg img (range layer_count) (REGUSE g) ;;
      let '(detected_regions, reguse) := d in
      let '(tm, regs) := accumulate detected_regions None [] in
      let base := match tm with
                  | Some t => Some (unsqueeze (complement t))
                  | None => regbase self
                  end in
      Ret (mkGlobals colreg reguse (VARIANT g),
           mkProcessor (height self) (width self) (batch_size self)
                       (is_forge self) (is_reforge self)
                       regs base (hooked self) true)
  end.

End Ingestion.

Import Ingestion.

(** ** Attention compositor and hook manager *)

Module Resolution.

(** [math.ceil(x / 2)] on an integer. *)
Definition ceil_half (x : Z) : Z := (x + 1) / 2.

(** [while y > 0: x = math.ceil(x / 2); y = y - 1], by recursion on the
    number of iterations left. *)
Fixpoint repeat_div_loop (y : nat) (x : Z) : Z :=
  match y with
  | O => x
  | S y' => repeat_div_loop y' (ceil_half x)
  end.

Definition _repeat_div (x y : Z) : Z := repeat_div_loop (Z.to_nat y) x.

(** Ceiling of [a / b] for [b > 0]. *)
Definition cdiv (a b : Z) : Z := (a + b - 1) / b.

(** [math.ceil(math.log2(math.sqrt(a / b)))]: the division raises on a
    zero divisor, [math.sqrt] on a negative quotient and [math.log2] on
    zero; otherwise the value is the least [s] with [a / b <= 4^s]. *)
Definition derive_scale (a b : Z) : outcome Z :=
  if b =? 0 then Raise ZeroDivisionError
  else if (a =? 0) || ((a <? 0) && (0 <? b)) || ((0 <? a) && (b <? 0))
  then Raise ValueError
  else
    let a := Z.abs a in
    let b := Z.abs b in
    if b <=? a then Ret ((Z.log2_up (cdiv a b) + 1) / 2)
    else Ret (- (Z.log2 (b / a) / 2)).

End Resolution.

Import Resolution.

Section Compositor.

(** The host's tensors are opaque; only [t.size()[1]] is read. *)
Variable Tensor : Type.
Variable size1 : Tensor -> Z.
Variable Kwargs : Type.

Definition forward_fn : Type :=
  Tensor -> option Tensor -> option Tensor -> Kwargs -> outcome Tensor.

(** What [module.forward] may hold: a forward of the host network, or
    the closure built by [_create_forward_hook] for this processor and
    this submodule. *)
Inductive entry : Type :=
| Host (f : forward_fn)
| Intercept.

Record submodule : Type := mkSubmodule {
  class_name : string;
  heads : Z;
  mod_forward : entry;
  mod_original_forward : option entry
}.

(** Lines 484-515: the per-chunk attention passes and their blend by
    the resized masks, in floating point; taken as given.  Arguments:
    the processor, [h], [dsh], [dsw], [num_chunks], [x],
    [context_to_use], [mask]. *)
Variable blend :
  Processor -> Z -> Z -> Z -> Z -> Tensor -> Tensor -> option Tensor ->
  outcome Tensor.

Definition default {A : Type} (val : option A) (d : A) : A :=
  match val with
  | Some v => v
  | None => d
  end.

(** Lines 473-475. *)
Definition feature_resolution (processor : Processor) (xs : Z)
  : outcome (Z * Z) :=
  scale <- derive_scale (height processor * width processor) xs ;;
  Ret (_repeat_div (height processor) scale,
       _repeat_div (width processor) scale).

(** The closure [forward]; [original_forward] is what the call
    [module._original_forward(...)] does. *)
Definition forward (processor : Processor) (module : submodule)
           (original_forward : forward_fn) : forward_fn :=
  fun x context mask kwargs =>
    if negb (active processor) || (len (regmasks processor) =? 0)
    then original_forward x context mask kwargs
    else
      let h := heads module in
      let xs := size1 x in
      ds <- feature_resolution processor xs ;;
      let '(dsh, dsw) := ds in
      let context_to_use := default context x in
      let total_tokens := size1 context_to_use in
      let num_chunks := total_tokens / TOKENSCON in
      if num_chunks <=? 1
      then original_forward x context mask kwargs
      else blend processor h dsh dsw num_chunks x context_to_use mask.

(** Calling what a forward attribute holds.  The closure looks
    [module._original_forward] up when it runs; [depth] is the
    interpreter's remaining recursion depth. *)
Fixpoint call (depth : nat) (processor : Processor) (module : submodule)
         (e : entry) : forward_fn :=
  fun x context mask kwargs =>
    match depth with
    | O => Raise RecursionError
    | S d =>
        match e with
        | Host f => f x context mask kwargs
        | Intercept =>
            forward processor module
              (fun x' context' mask' kwargs' =>
                 match mod_original_forward module with
                 | None => Raise AttributeError
                 | Some e' => call d processor module e' x' context' mask' kwargs'
                 end)
              x context mask kwargs
        end
    end.

(** *** Hook manager *)

(** [pat in name]. *)
Fixpoint contains (pat name : string) : bool :=
  String.prefix pat name
  || match name with
     | EmptyString => false
     | String _ rest => contains pat rest
     end.

Definition targeted (name : string) (module : submodule) : bool :=
  contains "attn2" name && String.eqb (class_name module) "CrossAttention".

(** The body of the traversal for one named submodule. *)
Definition patch (remove : bool) (name : string) (module : submodule)
  : submodule :=
  if targeted name module then
    if remove then
      match mod_original_forward module with
      | Some saved =>
          mkSubmodule (class_name module) (heads module) saved None
      | None => module
      end
    else
      mkSubmodule (class_name module) (heads module)
                  Intercept (Some (mod_forward module))
  else module.

(** [root_module.named_modules()]. *)
Definition network : Type := list (string * submodule).

Definition _hook_forwards_standard (root_module : network) (remove : bool)
  : network :=
  map (fun nm : string * submodule => (fst nm, patch remove (fst nm) (snd nm)))
      root_module.

Definition _hook_forwards_forge (root_module : network) (remove : bool)
  : network :=
  map (fun nm : string * submodule => (fst nm, patch remove (fst nm) (snd nm)))
      root_module.

(** The two roots reachable from [p]:
    [p.sd_model.forge_objects.unet.model] and
    [p.sd_model.model.diffusion_model]. *)
Record processing : Type := mkProcessing {
  forge_unet : network;
  diffusion_model : network
}.

Definition hook_forwards (self : Processor) (p : processing)
  : Processor * processing :=
  let p' := if is_forge self
            then mkProcessing (_hook_forwards_forge (forge_unet p) false)
                              (diffusion_model p)
            else mkProcessing (forge_unet p)
                              (_hook_forwards_standard (diffusion_model p) false) in
  (set_hooked true self, p').

Definition unhook_forwards (self : Processor) (p : processing)
  : Processor * processing :=
  if hooked self then
    let p' := if is_forge self
              then mkProcessing (_hook_forwards_forge (forge_unet p) true)
                                (diffusion_model p)
              else mkProcessing (forge_unet p)
                                (_hook_forwards_standard (diffusion_model p) true) in
    (set_hooked false self, p')
  else (self, p).

End Compositor.

Arguments Host {Tensor Kwargs} f.
Arguments Intercept {Tensor Kwargs}.
Arguments mkSubmodule {Tensor Kwargs}.
Arguments class_name {Tensor Kwargs}.
Arguments heads {Tensor Kwargs}.
Arguments mod_forward {Tensor Kwargs}.
Arguments mod_original_forward {Tensor Kwargs}.
Arguments mkProcessing {Tensor Kwargs}.
Arguments forge_unet {Tensor Kwargs}.
Arguments diffusion_model {Tensor Kwargs}.

(** ** Reference notions of the design document, and loop invariants *)

Module Spec.

(** [z] is the ceiling of the real number [r]. *)
Definition is_ceiling (r : R) (z : Z) : Prop :=
  (IZR z - 1 < r <= IZR z)%R.

Definition log2R (r : R) : R := (ln r / ln 2)%R.

(** The scale formula of the document, [log2(sqrt(H*W/xs))], over the
    reals. *)
Definition scale_formula (H W xs : Z) : R :=
  log2R (sqrt (IZR (H * W) / IZR xs)).

(** Halving with ceiling division. *)
Definition halve_up (x : Z) : Z := cdiv x 2.

(** The colour of region [c] in a colour sequence. *)
Definition colour_at (cs : list colour) (c : Z) : colour :=
  nth (Z.to_nat c) cs (0, 0, 0).

(** All three channel differences are below the tolerance 10. *)
Definition close (color px : colour) : Prop :=
  let '(r, g, b) := px in
  let '(cr, cg, cb) := color in
  Z.abs (r - cr) < 10 /\ Z.abs (g - cg) < 10 /\ Z.abs (b - cb) < 10.

(** Some pixel of the image matches the colour. *)
Definition region_present (img : image) (color : colour) : Prop :=
  exists row px, In row img /\ In px row /\ close color px.

(** The binary mask of a colour. *)
Definition indicator (color px : colour) : Z :=
  if close_to color px then 1 else 0.

Definition region_mask (img : image) (color : colour) : list (list Z) :=
  map (map (indicator color)) img.

(** The sum of the masks of [colors] at one pixel, and the base mask:
    one minus that sum clipped to [0, 1]. *)
Definition coverage (colors : list colour) (px : colour) : Z :=
  fold_right Z.add 0 (map (fun col => indicator col px) colors).

Definition base_mask (img : image) (colors : list colour) : list (list Z) :=
  map (map (fun px => 1 - clip01 (coverage colors px))) img.

(** The base mask as a complement of a union: 1 exactly where no colour
    of [colors] matches. *)
Definition uncovered (img : image) (colors : list colour) : list (list Z) :=
  map (map (fun px => if existsb (fun col => close_to col px) colors
                      then 0 else 1)) img.

(** The index of the hue bucket of width [1 / k] that holds [h]. *)
Definition bucket (k : Z) (h : Q) : Z := Qfloor (h * inject_Z k).

(** The hue of an entry the allocator returns: the hue of its RGB triple
    in [0, 1), by the hexcone formula ([colorsys.rgb_to_hsv]). *)
Definition hue_of (c : colour) : Q :=
  let '(r, g, b) := c in
  let maxc := Z.max r (Z.max g b) in
  let minc := Z.min r (Z.min g b) in
  if minc =? maxc then 0%Q
  else
    let d := inject_Z (maxc - minc) in
    let rc := (inject_Z (maxc - r) / d)%Q in
    let gc := (inject_Z (maxc - g) / d)%Q in
    let bc := (inject_Z (maxc - b) / d)%Q in
    let h := if r =? maxc then (bc - gc)%Q
             else if g =? maxc then (2 + rc - bc)%Q
             else (4 + gc - rc)%Q in
    Qmod (h / 6) 1.

(** Index [i] lies in subdivision cycle [cycle_of i], where its hue is
    [hue_numerator i / 2 ^ cycle_of i]. *)
Definition cycle_of (i : Z) : Z := Z.log2_up (i + 1).

Definition hue_numerator (i : Z) : Z :=
  if i =? 0 then 0 else 2 * (i - 2 ^ (cycle_of i - 1)) + 1.

(** The bucket of width [1 / 2^C] of the hue at index [i]. *)
Definition bucket_index (C i : Z) : Z :=
  hue_numerator i * 2 ^ (C - cycle_of i).

(** The loop state after the iteration at index [i]. *)
Definition consistent (i : Z) (c : cycle) : Prop :=
  pcyc c = cycle_of i /\
  (cval c * inject_Z (2 ^ cycle_of i) == inject_Z (hue_numerator i))%Q /\
  (1 <= i -> (dlt c * inject_Z (2 ^ cycle_of i) == 1)%Q).

(** When the next index [i] stays in the cycle of [i - 1], the state
    carries the hue of [i - 1] and the step of that cycle; otherwise only
    the cycle number matters. *)
Definition resumable (i : Z) (c : cycle) : Prop :=
  pcyc c = cycle_of (i - 1) /\
  (cycle_of (i - 1) = cycle_of i ->
   (cval c * inject_Z (2 ^ cycle_of i) == inject_Z (hue_numerator (i - 1)))%Q /\
   (dlt c * inject_Z (2 ^ cycle_of i) == 1)%Q).

(** The loop state after [k] iterations from index [i]. *)
Fixpoint loop_state (k : nat) (i : Z) (c : cycle) : cycle :=
  match k with
  | O => c
  | S k' => loop_state k' (i + 1) (step i c)
  end.

End Spec.

Import Spec.

(** ** State invariants and further reference notions *)

Module Invariants.

(** The cached colour sequence is absent or is what one allocation of its
    length yields. *)
Definition canonical (colreg : option (list colour)) : Prop :=
  match colreg with
  | None => True
  | Some l => deterministic_colours (len l) None = Some l
  end.

(** [REGUSE[k]]. *)
Fixpoint dict_get (k : Z) (d : registry) : option colour :=
  match d with
  | [] => None
  | (k', v) :: rest => if k =? k' then Some v else dict_get k rest
  end.

(** All rows have [w] pixels. *)
Definition rectangular (w : Z) (a : image) : Prop :=
  Forall (fun row => len row = w) a.

(** [P] holds between every entry and every later one. *)
Fixpoint all_pairs (P : colour -> colour -> bool) (l : list colour) : bool :=
  match l with
  | [] => true
  | x :: rest => forallb (P x) rest && all_pairs P rest
  end.

(** Some channel differs by at least [d]. *)
Definition apart (d : Z) (a b : colour) : bool :=
  let '(r1, g1, b1) := a in
  let '(r2, g2, b2) := b in
  (d <=? Z.abs (r1 - r2)) || (d <=? Z.abs (g1 - g2)) || (d <=? Z.abs (b1 - b2)).

(** Every channel lies in [lo .. hi]. *)
Definition channels_within (lo hi : Z) (c : colour) : Prop :=
  let '(r, g, b) := c in
  lo <= r <= hi /\ lo <= g <= hi /\ lo <= b <= hi.

(** Some channel of the pixel lies outside 55..137, out of reach of the
    tolerance around any allocated colour. *)
Definition off_palette (px : colour) : Prop :=
  let '(r, g, b) := px in
  r < 55 \/ 137 < r \/ g < 55 \/ 137 < g \/ b < 55 \/ 137 < b.

End Invariants.

Import Invariants.

(** ** Region codec: a stroke commit followed by mask extraction *)

Module Editor.

(** [f"{v:02x}"] for a byte [v]. *)
Definition hex_digit (d : Z) : string :=
  match d with
  | 0 => "0" | 1 => "1" | 2 => "2" | 3 => "3" | 4 => "4" | 5 => "5"
  | 6 => "6" | 7 => "7" | 8 => "8" | 9 => "9" | 10 => "a" | 11 => "b"
  | 12 => "c" | 13 => "d" | 14 => "e" | _ => "f"
  end%string.

Definition hex02 (v : Z) : string :=
  (hex_digit (v / 16) ++ hex_digit (v mod 16))%string.

(** [f"#{rgb[0]:02x}{rgb[1]:02x}{rgb[2]:02x}"]. *)
Definition html_color (rgb : colour) : string :=
  let '(r, g, b) := rgb in
  ("#" ++ hex02 r ++ hex02 g ++ hex02 b)%string.

Section ChangeColor.

(** Gradio's update objects: [gr.update()], and
    [gr.ImageEditor.update(brush=gr.Brush(colors=[c], color_mode="fixed"))]
    for an HTML colour [c], which raises where Gradio has no such
    constructor. *)
Variable Update : Type.
Variable gr_update : Update.
Variable image_editor_update : string -> outcome Update.

Definition change_color (index : Z) : outcome Update :=
  match deterministic_colours (index + 1) None with
  | None => Ret gr_update
  | Some colors =>
      if len colors =? 0 then Ret gr_update
      else
        rgb <- subscript (Some colors) (-1) ;;
        match image_editor_update (html_color rgb) with
        | Ret u => Ret u
        | Raise _ => Ret gr_update
        end
  end.

End ChangeColor.

Section DrawRegion.

Variable contours : Type.
Variable find_contours : image -> outcome contours.
Variable fill_contours : image -> contours -> colour -> outcome image.

(** [draw_region]: [detect_polygons], then [detect_mask] on the canvas it
    returned, with the default multiplier [CBLACK]. *)
Definition draw_region (g : Globals) (img : strokes) (num : Z)
  : outcome (Globals * image * Z * option mask) :=
  r <- detect_polygons contours find_contours fill_contours g img num ;;
  let '(g1, img_out, num2) := r in
  m <- detect_mask g1 (Array img_out) num CBLACK ;;
  let '(g2, mask) := m in
  Ret (g2, img_out, num2, mask).

End DrawRegion.

End Editor.

Import Editor.

(** ** Attention compositor: conditioning chunks *)

Module Conditioning.

(** Lines 486 and 498-503: the token span [start, stop) of the
    conditioning read for the base pass, and for the region at position
    [i] of [regmasks] ([chunk_idx = i + 1], falling back to the base span
    when there is no such chunk). *)
Definition base_span : Z * Z := (0, TOKENSCON).

Definition region_span (num_chunks i : Z) : Z * Z :=
  let chunk_idx := i + 1 in
  if chunk_idx <? num_chunks
  then (chunk_idx * TOKENSCON, (chunk_idx + 1) * TOKENSCON)
  else base_span.

End Conditioning.

Import Conditioning.

(** ** The script entry points ([scripts/mask_rp.py]) *)

Module Script.

(** [str(i)] of an integer. *)
Definition str (i : Z) : string := NilZero.string_of_int (Z.to_int i).

(** A JSON object of strings, as the annotation [dict[str, str]] of
    [layer_prompts_map] has it: an association list read by its first
    match. *)
Definition prompts_map : Type := list (string * string).

(** [d.get(k, "")]. *)
Fixpoint get (k : string) (d : prompts_map) : string :=
  match d with
  | [] => EmptyString
  | (k', v) :: rest => if String.eqb k k' then v else get k rest
  end.

(** [range(lo, hi)]. *)
Definition range_from (lo hi : Z) : list Z :=
  map (fun k => lo + Z.of_nat k) (seq 0 (Z.to_nat (hi - lo))).

(** [len(s)] of a string. *)
Definition slen (s : string) : Z := Z.of_nat (String.length s).

(** Truth value of a string. *)
Definition truthy (s : string) : bool :=
  match s with EmptyString => false | _ => true end.

(** [len(layer_prompts_map) if layer_prompts_map else int(layer_count) if
    layer_count else 0]. *)
Definition actual_layer_count (layer_prompts_map : prompts_map)
           (layer_count : Z) : Z :=
  match layer_prompts_map with
  | _ :: _ => len layer_prompts_map
  | [] => if layer_count =? 0 then 0 else layer_count
  end.

(** The list [prompts] after the loop of [process]. *)
Definition prompts (base_prompt : string) (layer_prompts_map : prompts_map)
           (actual_layer_count : Z) : list string :=
  fold_left
    (fun prompts i =>
       let layer_text := get (str i) layer_prompts_map in
       prompts ++ [if truthy layer_text then layer_text else "_"%string])
    (range_from 1 (actual_layer_count + 1))
    (if truthy base_prompt then [base_prompt] else [EmptyString]).

(** [" BREAK ".join(prompts) if len(prompts) > 1 else prompts[0]]. *)
Definition combined_prompt (prompts : list string) : outcome string :=
  if 1 <? len prompts then Ret (String.concat " BREAK " prompts)
  else match prompts with
       | p0 :: _ => Ret p0
       | [] => Raise IndexError
       end.

(** [combined_prompt[:200] + "..." if len(combined_prompt) > 200 else
    combined_prompt]. *)
Definition summary (combined_prompt : string) : string :=
  if 200 <? slen combined_prompt
  then (String.substring 0 200 combined_prompt ++ "...")%string
  else combined_prompt.

(** [[s] * len(l) if hasattr(p, name) and l else [s]]; an absent
    attribute is [None]. *)
Definition broadcast (s : string) (l : option (list string)) : list string :=
  match l with
  | Some (_ :: _ as l) => repeat s (List.length l)
  | _ => [s]
  end.

(** Values of [p.extra_generation_params]. *)
Inductive param : Type :=
| PBool (b : bool)
| PInt (z : Z)
| PStr (s : string).

(** [d[k] = v] on a dict with string keys. *)
Fixpoint update (k : string) (v : param) (d : list (string * param))
  : list (string * param) :=
  match d with
  | [] => [(k, v)]
  | (k', v') :: rest =>
      if String.eqb k k' then (k, v) :: rest else (k', v') :: update k v rest
  end.

(** What [json.loads] can return: [None], a bool, a number, a string, a
    list or a dict with string keys. *)
#[local] Unset Elimination Schemes.
Inductive json : Type :=
| JNull
| JBool (b : bool)
| JNum (q : Q)
| JStr (s : string)
| JList (l : list json)
| JDict (d : list (string * json)).
#[local] Set Elimination Schemes.

(** A map of strings as the JSON object it is loaded from. *)
Definition of_map (m : prompts_map) : json :=
  JDict (map (fun kv => (fst kv, JStr (snd kv))) m).

(** Truth value of a loaded value. *)
Definition json_truthy (v : json) : bool :=
  match v with
  | JNull => false
  | JBool b => b
  | JNum q => negb (Qeq_bool q 0)
  | JStr s => truthy s
  | JList l => negb (len l =? 0)
  | JDict d => negb (len d =? 0)
  end.

(** [len(v)]: defined on strings, lists and dicts. *)
Definition json_len (v : json) : outcome Z :=
  match v with
  | JStr s => Ret (slen s)
  | JList l => Ret (len l)
  | JDict d => Ret (len d)
  | _ => Raise TypeError
  end.

(** [d.get(k, "")] on the entries of a dict. *)
Fixpoint lookup (k : string) (d : list (string * json)) : json :=
  match d with
  | [] => JStr EmptyString
  | (k', v) :: rest => if String.eqb k k' then v else lookup k rest
  end.

(** [v.get(k, "")]: only a dict has [get]. *)
Definition json_get (k : string) (v : json) : outcome json :=
  match v with
  | JDict d => Ret (lookup k d)
  | _ => Raise AttributeError
  end.

(** Lines 480-482: the loop of [process] over the layer numbers, on
    whatever was loaded. *)
Fixpoint layer_loop (layer_prompts_map : json) (ids : list Z)
         (prompts : list json) : outcome (list json) :=
  match ids with
  | [] => Ret prompts
  | i :: rest =>
      layer_text <- json_get (str i) layer_prompts_map ;;
      layer_loop layer_prompts_map rest
                 (prompts ++ [if json_truthy layer_text then layer_text
                              else JStr "_"])
  end.

(** [sep.join(l)]: every item has to be a string. *)
Fixpoint strings (l : list json) : outcome (list string) :=
  match l with
  | [] => Ret []
  | JStr s :: rest => ss <- strings rest ;; Ret (s :: ss)
  | _ :: _ => Raise TypeError
  end.

Definition join (sep : string) (l : list json) : outcome string :=
  ss <- strings l ;; Ret (String.concat sep ss).

(** [MaskRegionProcessor.__init__]. *)
Definition MaskRegionProcessor (height width batch_size : Z)
           (is_forge is_reforge : bool) : Processor :=
  mkProcessor height width batch_size is_forge is_reforge [] None false false.

Section Process.

Variable Tensor : Type.
Variable Kwargs : Type.

(** The launcher flavour, read once at import (lines 28-37). *)
Variable forge : bool.
Variable reforge : bool.

(** Lines 455-460: the payload after the first comma, base64-decoded and
    opened as an RGB image; [None] when any of these steps raises. *)
Variable decode : string -> option image.

(** [json.loads] on the prompt dump; [None] when it raises. *)
Variable json_loads : string -> option json.

(** Lines 469-474: [layer_prompts_map], which stays [{}] when the dump is
    empty or does not parse. *)
Definition load (prompts_dump : string) : json :=
  if truthy prompts_dump
  then match json_loads prompts_dump with
       | Some v => v
       | None => JDict []
       end
  else JDict [].

(** The fields of the request [p] that the script reads or writes. *)
Record sd_processing : Type := mkSd {
  p_height : Z;
  p_width : Z;
  p_batch_size : Z;
  sd_model : processing Tensor Kwargs;
  prompt : string;
  all_prompts : option (list string);
  negative_prompt : string;
  all_negative_prompts : option (list string);
  extra_generation_params : list (string * param)
}.

(** The script object: [self.processor] and [self.active]. *)
Record script : Type := mkScript {
  script_processor : option Processor;
  script_active : bool
}.

Definition process (g : Globals) (self : script) (p : sd_processing)
           (active : bool) (mask_data base_prompt base_neg_prompt
                            prompts_dump : string) (layer_count : Z)
  : outcome (Globals * script * sd_processing) :=
  if negb active then Ret (g, self, p)
  else if negb (truthy mask_data && String.prefix "data:image" mask_data)
  then Ret (g, self, p)
  else
    match decode mask_data with
    | None => Ret (g, self, p)
    | Some mask_image =>
        let processor :=
          MaskRegionProcessor (p_height p) (p_width p) (p_batch_size p)
                              forge reforge in
        let layer_prompts_map := load prompts_dump in
        n <- (if json_truthy layer_prompts_map
              then json_len layer_prompts_map
              else Ret (if layer_count =? 0 then 0 else layer_count)) ;;
        let first := if truthy base_prompt then base_prompt
                     else EmptyString in
        ps <- layer_loop layer_prompts_map (range_from 1 (n + 1))
                         [JStr first] ;;
        combined <- (if 1 <? len ps then join " BREAK " ps else Ret first) ;;
        r <- setup_masks g processor (Some (RGB mask_image)) n ;;
        let '(g1, processor1) := r in
        let '(processor2, model) :=
          hook_forwards Tensor Kwargs processor1 (sd_model p) in
        let neg := truthy base_neg_prompt in
        Ret (g1,
             mkScript (Some processor2) true,
             mkSd (p_height p) (p_width p) (p_batch_size p) model
                  combined
                  (Some (broadcast combined (all_prompts p)))
                  (if neg then base_neg_prompt else negative_prompt p)
                  (if neg
                   then Some (broadcast base_neg_prompt (all_negative_prompts p))
                   else all_negative_prompts p)
                  (update "MRP Prompt" (PStr (summary combined))
                     (update "MRP Regions" (PInt (n + 1))
                        (update "MRP Active" (PBool true)
                           (extra_generation_params p)))))
    end.


End Process.

Arguments mkSd {Tensor Kwargs}.
Arguments p_height {Tensor Kwargs}.
Arguments p_width {Tensor Kwargs}.
Arguments p_batch_size {Tensor Kwargs}.
Arguments sd_model {Tensor Kwargs}.
Arguments prompt {Tensor Kwargs}.
Arguments all_prompts {Tensor Kwargs}.
Arguments negative_prompt {Tensor Kwargs}.
Arguments all_negative_prompts {Tensor Kwargs}.
Arguments extra_generation_params {Tensor Kwargs}.

End Script.

Import Script.

(** * Properties *)

(** ** Colour allocator *)

Section AllocatorFacts.

Lemma len_nonneg {A : Type} (l : list A) : 0 <= len l.
Proof. unfold len; lia. Qed.

Lemma len_app {A : Type} (l1 l2 : list A) : len (l1 ++ l2) = len l1 + len l2.
Proof. unfold len; rewrite length_app; lia. Qed.

Lemma hue_loop_length (k : nat) : forall i c, List.length (hue_loop k i c) = k.
Proof.
  induction k as [|k IH]; intros i c; simpl; [reflexivity|].
  now rewrite IH.
Qed.

Lemma lhsv_len (st n : Z) (c : cycle) :
  st <= n -> len (map quantise (lhsv st n c)) = n - st.
Proof.
  intros Hle. unfold len, lhsv.
  rewrite length_map, hue_loop_length. lia.
Qed.

(** A positive request always yields a sequence, at least as long as
    asked for. *)
Lemma deterministic_colours_some (n : Z) (lcol : option (list colour)) :
  0 < n ->
  exists cs, deterministic_colours n lcol = Some cs /\ n <= len cs.
Proof.
  intros Hn. unfold deterministic_colours.
  destruct (Z.leb_spec n 0) as [H0|_]; [lia|].
  destruct lcol as [l|].
  - destruct (Z.leb_spec n (len l)) as [Hl|Hl].
    + exists l; split; [reflexivity | exact Hl].
    + eexists; split; [reflexivity|].
      rewrite len_app, lhsv_len by lia. lia.
  - eexists; split; [reflexivity|].
    rewrite lhsv_len by lia. lia.
Qed.

Lemma deterministic_colours_fresh (n : Z) :
  0 < n ->
  exists cs, deterministic_colours n None = Some cs /\ len cs = n.
Proof.
  intros Hn. unfold deterministic_colours.
  destruct (Z.leb_spec n 0) as [H0|_]; [lia|].
  eexists; split; [reflexivity|].
  rewrite lhsv_len by lia. lia.
Qed.

Lemma deterministic_colours_extend (n : Z) (l : list colour) :
  0 < n -> len l < n ->
  exists suffix,
    deterministic_colours n (Some l) = Some (l ++ suffix) /\
    len suffix = n - len l.
Proof.
  intros Hn Hl. unfold deterministic_colours.
  destruct (Z.leb_spec n 0) as [H0|_]; [lia|].
  destruct (Z.leb_spec n (len l)) as [Hl'|_]; [lia|].
  eexists; split; [reflexivity|].
  apply lhsv_len; lia.
Qed.

Lemma deterministic_colours_keep (n : Z) (l : list colour) :
  0 < n -> n <= len l -> deterministic_colours n (Some l) = Some l.
Proof.
  intros Hn Hl. unfold deterministic_colours.
  destruct (Z.leb_spec n 0) as [H0|_]; [lia|].
  destruct (Z.leb_spec n (len l)) as [_|Hl']; [reflexivity | lia].
Qed.

Lemma firstn_len_app {A : Type} (l r : list A) :
  firstn (Z.to_nat (len l)) (l ++ r) = l.
Proof.
  unfold len. rewrite Nat2Z.id.
  rewrite firstn_app, Nat.sub_diag, firstn_all. simpl.
  apply app_nil_r.
Qed.

End AllocatorFacts.

(** C9.  A request for [n <= 0] colours returns [None], whatever existing
    sequence is supplied; the allocator has no raising path. *)
Theorem deterministic_colours_nonpositive :
  forall (n : Z) (lcol : option (list colour)),
    n <= 0 -> deterministic_colours n lcol = None.
Proof.
  intros n lcol Hn. unfold deterministic_colours.
  destruct (Z.leb_spec n 0); [reflexivity | lia].
Qed.

Lemma deterministic_colours_nonpositive_witness :
  -2 <= 0 /\
  deterministic_colours (-2) (Some [(128, 64, 64); (64, 128, 128)]) = None.
Proof.
  split; [lia|].
  apply (deterministic_colours_nonpositive (-2)); lia.
Defined.

(** C2.  Prefix stability: extending [deterministic_colours m] to [n >= m]
    keeps its [m] entries as the first [m] of the result; an existing
    sequence that is long enough is returned as it is, and a shorter one
    is returned with exactly the [n - len existing] missing entries
    appended. *)
Theorem deterministic_colours_prefix_stable :
  forall (m n : Z) (existing : list colour),
    0 < m <= n ->
    (exists cs out,
        deterministic_colours m None = Some cs /\
        len cs = m /\
        deterministic_colours n (Some cs) = Some out /\
        firstn (Z.to_nat m) out = cs) /\
    (n <= len existing ->
     deterministic_colours n (Some existing) = Some existing) /\
    (len existing < n ->
     exists suffix,
       deterministic_colours n (Some existing) = Some (existing ++ suffix) /\
       len suffix = n - len existing).
Proof.
  intros m n existing [Hm Hmn]. repeat split.
  - destruct (deterministic_colours_fresh m Hm) as (cs & Hcs & Hlen).
    destruct (Z.eq_dec m n) as [->|Hne].
    + exists cs, cs. repeat split; try assumption.
      * apply deterministic_colours_keep; lia.
      * rewrite <- Hlen. rewrite <- (app_nil_r cs) at 2.
        apply firstn_len_app.
    + destruct (deterministic_colours_extend n cs) as (suffix & Hout & _);
        [lia | lia |].
      exists cs, (cs ++ suffix). repeat split; try assumption.
      rewrite <- Hlen. apply firstn_len_app.
  - intros Hlong. apply deterministic_colours_keep; lia.
  - intros Hshort. apply deterministic_colours_extend; lia.
Qed.

Lemma deterministic_colours_prefix_stable_witness :
  0 < 2 <= 5 /\
  exists suffix,
    deterministic_colours 5 (Some [(128, 64, 64); (64, 128, 128)])
    = Some ([(128, 64, 64); (64, 128, 128)] ++ suffix) /\
    len suffix = 5 - len [(128, 64, 64); (64, 128, 128)].
Proof.
  split; [lia|].
  apply (deterministic_colours_prefix_stable 2 5 [(128, 64, 64); (64, 128, 128)]);
    [lia | vm_compute; reflexivity].
Defined.

(** ** Region codec *)

Section CodecFacts.

Lemma subscript_in_range {A : Type} (l : list A) (i : Z) :
  0 <= i < len l -> exists x, subscript (Some l) i = Ret x.
Proof.
  intros [H0 Hlt]. unfold subscript.
  destruct (Z.ltb_spec i 0) as [Hneg|_]; [lia|].
  destruct (Z.ltb_spec i 0) as [Hneg|_]; [lia|].
  destruct (nth_error l (Z.to_nat i)) as [x|] eqn:Hnth.
  - now exists x.
  - apply nth_error_None in Hnth. unfold len in Hlt. lia.
Qed.

Lemma subscript_last {A : Type} (l : list A) :
  0 < len l -> exists x, subscript (Some l) (-1) = Ret x.
Proof.
  intros Hpos. unfold subscript.
  change (-1 <? 0) with true. cbv iota.
  destruct (Z.ltb_spec (len l + -1) 0) as [Hneg|_]; [lia|].
  destruct (nth_error l (Z.to_nat (len l + -1))) as [x|] eqn:Hnth.
  - now exists x.
  - apply nth_error_None in Hnth. unfold len in *. lia.
Qed.

(** The colour lookup of [detect_polygons] never fails. *)
Lemma region_colour_defined (num : Z) (lcol : option (list colour)) :
  0 <= num ->
  exists color, subscript (deterministic_colours (num + 1) lcol) num = Ret color.
Proof.
  intros Hnum.
  destruct (deterministic_colours_some (num + 1) lcol) as (cs & -> & Hlen);
    [lia|].
  apply subscript_in_range; lia.
Qed.

(** [detect_mask] hands an absent canvas back as an absent mask. *)
Lemma detect_mask_absent (g : Globals) (num mult : Z) :
  detect_mask g Absent num mult = Ret (g, None) /\
  detect_mask g (Dict None) num mult = Ret (g, None).
Proof. split; reflexivity. Qed.

(** With an empty registry, every pixel of the complement mask is
    [mult]. *)
Lemma detect_mask_empty_registry (g : Globals) (c : canvas) (img : image)
      (num mult : Z) :
  canvas_image c = Some img -> num < 0 -> REGUSE g = [] ->
  detect_mask g c num mult
  = Ret (g, Some (map (map (fun _ : colour => mult)) img)).
Proof.
  intros Hc Hnum Hreg. unfold detect_mask. rewrite Hc, Hreg.
  destruct (Z.ltb_spec num 0) as [_|Hge]; [|lia].
  simpl. do 3 f_equal.
  apply map_ext; intros row. apply map_ext; intros px.
  now destruct mult.
Qed.

(** Where the code's complement mask is set, the pixel indeed equals no
    registered colour; the converse is what fails. *)
Lemma unclaimed_sound (cols : list colour) (px : colour) :
  cols <> [] -> unclaimed cols px = true -> unclaimed_spec cols px = true.
Proof.
  intros _ H. unfold unclaimed in H. simpl in H.
  apply andb_prop in H as [H0 _].
  unfold unclaimed_spec. apply forallb_forall. intros c Hin.
  rewrite forallb_forall in H0. specialize (H0 c Hin).
  destruct px as [[r g] b], c as [[cr cg] cb]. simpl in *.
  apply negb_true_iff in H0. apply negb_true_iff.
  now rewrite H0.
Qed.

End CodecFacts.

(** A stroke commit returns when both layers are present and OpenCV
    accepts them. *)
Lemma detect_polygons_returns (contours : Type)
      (find : image -> outcome contours)
      (fill : image -> contours -> colour -> outcome image)
      (g : Globals) (img : strokes) (num : Z) (a b : image) (cnts : contours) :
  stroke_image img = Some a -> stroke_mask img = Some b ->
  find (strip (VARIANT g) b) = Ret cnts ->
  (forall color, exists img2, fill (strip (VARIANT g) a) cnts color = Ret img2) ->
  exists g' skimg next,
    detect_polygons contours find fill g img num = Ret (g', skimg, next).
Proof.
  intros Ha Hb Hfind Hfill. unfold detect_polygons.
  rewrite Ha, Hb. cbn [slice bind]. rewrite Hfind. cbn [bind].
  match goal with
  | |- context [bind ?m _] =>
      assert (Hgc : exists g1 color, m = Ret (g1, color))
  end.
  { destruct (Z.ltb_spec num 0) as [Hneg|Hpos]; [eauto|].
    destruct (region_colour_defined num (COLREG g) Hpos) as (color & ->).
    simpl. eauto. }
  destruct Hgc as (g1 & color & ->). cbn [bind].
  destruct (Hfill color) as (img2 & ->). cbn [bind].
  match goal with
  | |- context [create_canvas ?a ?b ?c false] =>
      destruct (create_canvas a b c false) as [g2 skimg]
  end.
  eauto.
Qed.

(** C7.  Whenever a stroke commit returns, for a region id in the
    supported range (at most 255): the next id is [regionId + 1] capped at
    255 when [regionId >= 0], and [regionId] itself when [regionId < 0]. *)
Theorem detect_polygons_next_id :
  forall (contours : Type) (find : image -> outcome contours)
         (fill : image -> contours -> colour -> outcome image)
         (g g' : Globals) (img : strokes) (num next : Z) (skimg : image),
    num <= 255 ->
    detect_polygons contours find fill g img num = Ret (g', skimg, next) ->
    next = if 0 <=? num then Z.min (num + 1) 255 else num.
Proof.
  intros contours find fill g g' img num next skimg Hnum H.
  unfold detect_polygons in H.
  destruct (slice (VARIANT g) (stroke_image img)) as [out|e];
    [|discriminate H].
  destruct (slice (VARIANT g) (stroke_mask img)) as [mask_layer|e];
    [|discriminate H].
  cbn [bind] in H.
  destruct (find mask_layer) as [cnts|e]; [|discriminate H].
  cbn [bind] in H.
  match type of H with
  | bind ?m _ = _ => destruct m as [[g1 color]|e]; [|discriminate H]
  end.
  cbn [bind] in H.
  destruct (fill out cnts color) as [img2|e]; [|discriminate H].
  cbn [bind] in H.
  match type of H with
  | context [create_canvas ?a ?b ?c false] =>
      destruct (create_canvas a b c false) as [g2 sk]
  end.
  injection H as _ _ <-. unfold CBLACK.
  destruct (Z.geb_spec num 0), (Z.leb_spec 0 num),
    (Z.leb_spec (num + 1) 255); cbn [andb]; lia.
Qed.

Lemma detect_polygons_next_id_witness :
  let find := fun m : image =>
                match m with [] => Raise CvError | _ => Ret tt end in
  let fill := fun (out : image) (_ : unit) (_ : colour) => Ret out in
  let img := mkStrokes (Some [[COLWHITE]]) (Some [[COLWHITE]]) in
  let g' := mkGlobals (Some [(128, 64, 64)]) [(0, (128, 64, 64))] true in
  let skimg := [[COLWHITE; COLWHITE]; [COLWHITE; COLWHITE]] in
  detect_polygons unit find fill (mkGlobals None [] false) img 0
  = Ret (g', skimg, 1) /\
  1 = if 0 <=? 0 then Z.min (0 + 1) 255 else 0.
Proof.
  intros find fill img g' skimg.
  assert (E : detect_polygons unit find fill (mkGlobals None [] false) img 0
              = Ret (g', skimg, 1)) by (vm_compute; reflexivity).
  split; [exact E|].
  apply (detect_polygons_next_id unit find fill (mkGlobals None [] false)
           g' img 0 1 skimg); [lia | exact E].
Defined.

(** C5.  With the registry holding region 0's colour [(128, 64, 64)], a
    pixel of region 2's colour [(96, 128, 64)] equals no registered colour,
    so the complement mask should carry [fillValue] there; the code
    compares channel by channel, finds the blue channels equal, and
    writes 0. *)
Theorem detect_mask_complement_per_channel :
  let g := mkGlobals None [(0, (128, 64, 64))] false in
  let px := (96, 128, 64) in
  unclaimed_spec (dict_values (REGUSE g)) px = true /\
  detect_mask g (Array [[px]]) (-1) 255 = Ret (g, Some [[0]]).
Proof. split; reflexivity. Qed.

(** ** Attention compositor: pass-through *)

Section CompositorFacts.

Context {Tensor Kwargs : Type}.
Variable size1 : Tensor -> Z.
Variable blend :
  Processor -> Z -> Z -> Z -> Z -> Tensor -> Tensor -> option Tensor ->
  outcome Tensor.

(** The scale is defined as soon as both the base area and the token
    count are positive. *)
Lemma derive_scale_defined (a b : Z) :
  0 < a -> 0 < b -> exists s, derive_scale a b = Ret s.
Proof.
  intros Ha Hb. unfold derive_scale.
  destruct (Z.eqb_spec b 0) as [E|_]; [lia|].
  destruct (Z.eqb_spec a 0) as [E|_]; [lia|].
  destruct (Z.ltb_spec a 0) as [E|_]; [lia|].
  destruct (Z.ltb_spec b 0) as [E|_]; [lia|].
  rewrite andb_false_r. simpl.
  destruct (Z.abs b <=? Z.abs a); eauto.
Qed.

Lemma forward_inactive (processor : Processor) (module : submodule Tensor Kwargs)
      (orig : forward_fn Tensor Kwargs) x context mask kwargs :
  active processor = false \/ regmasks processor = [] ->
  forward Tensor size1 Kwargs blend processor module orig x context mask kwargs
  = orig x context mask kwargs.
Proof.
  intros H. unfold forward.
  destruct H as [-> | ->]; [reflexivity|].
  now rewrite orb_true_r.
Qed.

Lemma forward_single_chunk (processor : Processor) (module : submodule Tensor Kwargs)
      (orig : forward_fn Tensor Kwargs) x context mask kwargs :
  0 < height processor * width processor ->
  0 < size1 x ->
  size1 (default context x) / TOKENSCON <= 1 ->
  forward Tensor size1 Kwargs blend processor module orig x context mask kwargs
  = orig x context mask kwargs.
Proof.
  intros Harea Hxs Hchunks. unfold forward.
  destruct (negb (active processor) || (len (regmasks processor) =? 0));
    [reflexivity|].
  unfold feature_resolution.
  destruct (derive_scale_defined _ _ Harea Hxs) as (s & ->).
  cbn [bind].
  destruct (Z.leb_spec (size1 (default context x) / TOKENSCON) 1);
    [reflexivity | lia].
Qed.


End CompositorFacts.

(** Outside what an attention layer is ever called with: with no spatial
    token at all, an active processor with a region mask derives the scale
    before it looks at the chunks, and the division by [xs = 0] raises. *)
Lemma forward_without_tokens :
  forward Z (fun t => t) unit (fun _ _ _ _ _ x _ _ => Ret x)
          (mkProcessor 512 512 1 false false [[[[1]]]] None true true)
          (mkSubmodule "CrossAttention" 8 Intercept None)
          (fun x _ _ _ => Ret x)
          0 (Some 77) None tt
  = Raise ZeroDivisionError.
Proof. reflexivity. Qed.

(** C1.  The hooked forward returns exactly what the saved original
    forward returns on the same arguments when the processor is not
    active, or has no region mask, or when the conditioning holds at most
    one 77-token chunk.  In the third case the call is one an attention
    layer receives: the request has a positive base area
    [height * width] and the input has at least one spatial token. *)
Theorem forward_pass_through :
  forall (Tensor Kwargs : Type) (size1 : Tensor -> Z)
         (blend : Processor -> Z -> Z -> Z -> Z -> Tensor -> Tensor ->
                  option Tensor -> outcome Tensor)
         (processor : Processor) (module : submodule Tensor Kwargs)
         (orig : forward_fn Tensor Kwargs)
         (x : Tensor) (context mask : option Tensor) (kwargs : Kwargs),
    active processor = false \/ regmasks processor = [] \/
    (0 < height processor * width processor /\ 0 < size1 x /\
     size1 (default context x) / TOKENSCON <= 1) ->
    forward Tensor size1 Kwargs blend processor module orig
            x context mask kwargs
    = orig x context mask kwargs.
Proof.
  intros Tensor Kwargs size1 blend processor module orig x context mask kwargs H.
  destruct H as [H | [H | (Harea & Hxs & Hchunks)]].
  - apply forward_inactive; now left.
  - apply forward_inactive; now right.
  - now apply forward_single_chunk.
Qed.

Lemma forward_pass_through_witness :
  forward Z (fun t => t) unit (fun _ _ _ _ _ x _ _ => Raise ValueError)
          (mkProcessor 512 512 1 false false [[[[1]]]] None true true)
          (mkSubmodule "CrossAttention" 8 Intercept None)
          (fun x _ _ _ => Ret (x + 1))
          4096 (Some 77) None tt
  = Ret 4097.
Proof.
  apply (forward_pass_through Z unit (fun t => t)
           (fun _ _ _ _ _ x _ _ => Raise ValueError)
           (mkProcessor 512 512 1 false false [[[[1]]]] None true true)
           (mkSubmodule "CrossAttention" 8 Intercept None)
           (fun x _ _ _ => Ret (x + 1))
           4096 (Some 77) None tt).
  right; right. cbv. intuition congruence.
Defined.

(** C10.  [setup_masks] on an absent mask image returns with the
    process-wide state and the processor as they were; a processor that
    was inactive is still inactive, and its hooked forward hands every
    call to the original forward. *)
Theorem setup_masks_absent_image :
  forall (g : Globals) (self : Processor) (layer_count : Z),
    setup_masks g self None layer_count = Ret (g, self) /\
    forall (g' : Globals) (self' : Processor),
      setup_masks g self None layer_count = Ret (g', self') ->
      regmasks self' = regmasks self /\
      regbase self' = regbase self /\
      active self' = active self /\
      (active self = false ->
       forall (Tensor Kwargs : Type) (size1 : Tensor -> Z)
              (blend : Processor -> Z -> Z -> Z -> Z -> Tensor -> Tensor ->
                       option Tensor -> outcome Tensor)
              (module : submodule Tensor Kwargs)
              (orig : forward_fn Tensor Kwargs)
              (x : Tensor) (context mask : option Tensor) (kwargs : Kwargs),
         forward Tensor size1 Kwargs blend self' module orig
                 x context mask kwargs
         = orig x context mask kwargs).
Proof.
  intros g self layer_count. split; [reflexivity|].
  intros g' self' Heq. simpl in Heq. injection Heq as <- <-.
  repeat split.
  intros Hinactive *. apply forward_inactive. now left.
Qed.

Lemma setup_masks_absent_image_witness :
  let self := mkProcessor 512 512 1 false false [] None true false in
  forward Z (fun t => t) unit (fun _ _ _ _ _ x _ _ => Raise ValueError)
          self (mkSubmodule "CrossAttention" 8 Intercept None)
          (fun x _ _ _ => Ret (x + 1)) 4096 (Some 154) None tt
  = Ret 4097.
Proof.
  intros self.
  apply (proj2 (setup_masks_absent_image (mkGlobals None [] false) self 3)
               (mkGlobals None [] false) self eq_refl).
  reflexivity.
Defined.

(** ** Attention compositor: feature resolution *)

Section ResolutionFacts.

Lemma pow4_as_pow2 (s : Z) : 0 <= s -> 4 ^ s = 2 ^ (2 * s).
Proof. intros Hs. now rewrite Z.pow_mul_r by lia. Qed.

Lemma cdiv_bounds (a b : Z) :
  0 < b -> (cdiv a b - 1) * b < a <= cdiv a b * b.
Proof.
  intros Hb. unfold cdiv.
  pose proof (Z.div_mod (a + b - 1) b ltac:(lia)) as Hdm.
  pose proof (Z.mod_pos_bound (a + b - 1) b Hb) as Hmod.
  nia.
Qed.

(** The integer bounds behind [derive_scale]: the result [s] is the
    least integer with [a / b <= 4^s]. *)
Lemma derive_scale_bounds (a b : Z) :
  0 < a -> 0 < b ->
  exists s,
    derive_scale a b = Ret s /\
    (0 <= s -> a <= 4 ^ s * b /\ 4 ^ s * b < 4 * a) /\
    (s < 0 -> 4 ^ (- s) * a <= b /\ b < 4 * 4 ^ (- s) * a).
Proof.
  intros Ha Hb. unfold derive_scale.
  destruct (Z.eqb_spec b 0) as [E|_]; [lia|].
  destruct (Z.eqb_spec a 0) as [E|_]; [lia|].
  destruct (Z.ltb_spec a 0) as [E|_]; [lia|].
  destruct (Z.ltb_spec b 0) as [E|_]; [lia|].
  rewrite andb_false_r. cbn [orb].
  rewrite (Z.abs_eq a), (Z.abs_eq b) by lia.
  destruct (Z.leb_spec b a) as [Hba|Hab].
  - (* a / b >= 1 *)
    eexists; split; [reflexivity|].
    pose proof (cdiv_bounds a b Hb) as [Hlo Hhi].
    set (L := Z.log2_up (cdiv a b)).
    set (s := (L + 1) / 2).
    generalize dependent (cdiv a b). intros c Hlo Hhi L s.
    assert (Hc : 1 <= c) by nia.
    assert (HL : 0 <= L) by apply Z.log2_up_nonneg.
    assert (Hs : 2 * s - 1 <= L <= 2 * s).
    { unfold s. pose proof (Z.div_mod (L + 1) 2 ltac:(lia)).
      pose proof (Z.mod_pos_bound (L + 1) 2 ltac:(lia)). lia. }
    split; [|lia]. intros _.
    rewrite pow4_as_pow2 by lia.
    destruct (Z.eq_dec c 1) as [Hc1|Hc1].
    + assert (HL0 : L = 0) by (unfold L; rewrite Hc1; reflexivity).
      assert (Hs0 : s = 0) by lia.
      rewrite Hs0. change (2 ^ (2 * 0)) with 1. lia.
    + pose proof (Z.log2_up_spec c ltac:(lia)) as [Hlow Hup].
      fold L in Hlow, Hup.
      assert (Hmono : 2 ^ L <= 2 ^ (2 * s))
        by (apply Z.pow_le_mono_r; lia).
      assert (HL1 : 0 < L) by (apply Z.log2_up_pos; lia).
      assert (Hs1 : 1 <= s) by lia.
      assert (Hsplit : 2 ^ (2 * s) = 4 * 2 ^ (2 * s - 2)).
      { replace (2 * s) with (2 + (2 * s - 2)) at 1 by lia.
        rewrite Z.pow_add_r by lia. reflexivity. }
      assert (Hmono' : 2 ^ (2 * s - 2) <= 2 ^ Z.pred L)
        by (apply Z.pow_le_mono_r; lia).
      rewrite Hsplit.
      generalize dependent (2 ^ (2 * s - 2)). intros P Hsplit HP.
      rewrite Hsplit in Hmono.
      generalize dependent (2 ^ Z.pred L).
      generalize dependent (2 ^ L). intros PL HPL HPLP PL' HPL' HP'.
      split; nia.
  - (* a / b < 1 *)
    eexists; split; [reflexivity|].
    set (d := b / a).
    assert (Hd : d * a <= b < (d + 1) * a).
    { unfold d. pose proof (Z.div_mod b a ltac:(lia)).
      pose proof (Z.mod_pos_bound b a Ha). nia. }
    assert (Hd1 : 1 <= d) by nia.
    pose proof (Z.log2_spec d ltac:(lia)) as [Hlow Hup].
    set (L := Z.log2 d) in *.
    assert (HL : 0 <= L) by apply Z.log2_nonneg.
    set (t := L / 2).
    assert (Ht : 2 * t <= L <= 2 * t + 1).
    { unfold t. pose proof (Z.div_mod L 2 ltac:(lia)).
      pose proof (Z.mod_pos_bound L 2 ltac:(lia)). lia. }
    assert (Hpow : 4 ^ t <= d /\ d < 4 * 4 ^ t).
    { rewrite pow4_as_pow2 by lia.
      assert (2 ^ (2 * t) <= 2 ^ L) by (apply Z.pow_le_mono_r; lia).
      assert (2 ^ Z.succ L <= 2 ^ (2 * t + 2))
        by (apply Z.pow_le_mono_r; lia).
      assert (2 ^ (2 * t + 2) = 4 * 2 ^ (2 * t)).
      { rewrite Z.add_comm, Z.pow_add_r by lia. reflexivity. }
      lia. }
    destruct Hpow as [Hp1 Hp2].
    split.
    + intros Hs. assert (Ht0 : t = 0) by lia.
      clearbody t d. subst t.
      change (4 ^ (- 0)) with 1. change (4 ^ 0) with 1 in Hp2. nia.
    + intros _. rewrite Z.opp_involutive.
      generalize dependent (4 ^ t). intros P HP1 HP2. clearbody d. nia.
Qed.

Local Open Scope R_scope.

Lemma ln2_pos : 0 < ln 2.
Proof. pose proof ln_lt_2. lra. Qed.

Lemma ln4 : ln 4 = 2 * ln 2.
Proof.
  replace 4 with (2 * 2) by lra.
  rewrite ln_mult by lra. lra.
Qed.

Lemma ln_sqrt_half (q : R) : 0 < q -> ln (sqrt q) = ln q / 2.
Proof.
  intros Hq.
  pose proof (sqrt_lt_R0 q Hq) as Hs.
  pose proof (ln_mult (sqrt q) (sqrt q) Hs Hs) as Hm.
  rewrite sqrt_sqrt in Hm by lra. lra.
Qed.

Lemma ln_pow4 (n : nat) : ln (4 ^ n) = 2 * INR n * ln 2.
Proof. rewrite ln_pow by lra. rewrite ln4. lra. Qed.

Lemma log_le (x y : R) : 0 < x -> x <= y -> ln x <= ln y.
Proof.
  intros Hx [Hlt | ->]; [|lra].
  left. now apply ln_increasing.
Qed.

(** From bounds by powers of four to the ceiling of the logarithm. *)
Lemma ceiling_from_pow4_nonneg (q : R) (n : nat) :
  0 < q -> q <= 4 ^ n -> 4 ^ n < 4 * q ->
  is_ceiling (log2R (sqrt q)) (Z.of_nat n).
Proof.
  intros Hq Hup Hlow. unfold is_ceiling, log2R.
  rewrite ln_sqrt_half by assumption.
  rewrite <- INR_IZR_INZ.
  pose proof ln2_pos as H2.
  pose proof (log_le _ _ Hq Hup) as Hup'.
  assert (Hlow' : ln (4 ^ n) < ln (4 * q))
    by (apply ln_increasing; [apply pow_lt; lra | assumption]).
  rewrite ln_mult, ln4 in Hlow' by lra.
  rewrite ln_pow4 in Hup', Hlow'.
  split.
  - apply Rmult_lt_reg_r with (ln 2); [assumption|].
    unfold Rdiv. rewrite Rmult_assoc, Rinv_l by lra. lra.
  - apply Rmult_le_reg_r with (ln 2); [assumption|].
    unfold Rdiv. rewrite Rmult_assoc, Rinv_l by lra. lra.
Qed.

Lemma ceiling_from_pow4_neg (q : R) (n : nat) :
  0 < q -> 4 ^ n * q <= 1 -> 1 < 4 * 4 ^ n * q ->
  is_ceiling (log2R (sqrt q)) (- Z.of_nat n).
Proof.
  intros Hq Hup Hlow. unfold is_ceiling, log2R.
  rewrite ln_sqrt_half by assumption.
  rewrite opp_IZR, <- INR_IZR_INZ.
  pose proof ln2_pos as H2.
  assert (Hp : 0 < 4 ^ n) by (apply pow_lt; lra).
  assert (Hpq : 0 < 4 ^ n * q) by (apply Rmult_lt_0_compat; assumption).
  pose proof (log_le _ _ Hpq Hup) as Hup'.
  assert (Hlow' : ln 1 < ln (4 * 4 ^ n * q))
    by (apply ln_increasing; [lra | assumption]).
  rewrite ln_1 in Hup', Hlow'.
  rewrite Rmult_assoc, ln_mult, ln4 in Hlow' by lra.
  rewrite ln_mult, ln_pow4 in Hup', Hlow' by lra.
  split.
  - apply Rmult_lt_reg_r with (ln 2); [assumption|].
    unfold Rdiv. rewrite Rmult_assoc, Rinv_l by lra. lra.
  - apply Rmult_le_reg_r with (ln 2); [assumption|].
    unfold Rdiv. rewrite Rmult_assoc, Rinv_l by lra. lra.
Qed.

(** [derive_scale] computes the ceiling of the real-number formula
    [log2 (sqrt (a / b))]. *)
Lemma derive_scale_is_ceil_log2_sqrt (a b : Z) :
  (0 < a)%Z -> (0 < b)%Z ->
  exists s,
    derive_scale a b = Ret s /\
    is_ceiling (log2R (sqrt (IZR a / IZR b))) s.
Proof.
  intros Ha Hb.
  destruct (derive_scale_bounds a b Ha Hb) as (s & Hs & Hnn & Hneg).
  exists s. split; [exact Hs|].
  assert (Har : 0 < IZR a) by (apply IZR_lt; assumption).
  assert (Hbr : 0 < IZR b) by (apply IZR_lt; assumption).
  assert (Hq : 0 < IZR a / IZR b) by (apply Rdiv_lt_0_compat; assumption).
  destruct (Z_lt_le_dec s 0) as [Hlt|Hge].
  - destruct (Hneg Hlt) as [H1 H2].
    assert (Hn : (- s = Z.of_nat (Z.to_nat (- s)))%Z) by lia.
    replace s with (- Z.of_nat (Z.to_nat (- s)))%Z by lia.
    rewrite Hn in H1, H2.
    apply IZR_le in H1. apply IZR_lt in H2.
    rewrite !mult_IZR in H1. rewrite !mult_IZR in H2.
    rewrite <- pow_IZR in H1. rewrite <- pow_IZR in H2.
    apply ceiling_from_pow4_neg; [assumption | |].
    + apply Rmult_le_reg_r with (IZR b); [assumption|].
      unfold Rdiv. rewrite !Rmult_assoc, Rinv_l by lra. lra.
    + apply Rmult_lt_reg_r with (IZR b); [assumption|].
      unfold Rdiv. rewrite !Rmult_assoc, Rinv_l by lra. lra.
  - destruct (Hnn Hge) as [H1 H2].
    assert (Hn : s = Z.of_nat (Z.to_nat s)) by lia.
    rewrite Hn in H1, H2 |- *.
    apply IZR_le in H1. apply IZR_lt in H2.
    rewrite !mult_IZR in H1. rewrite !mult_IZR in H2.
    rewrite <- pow_IZR in H1. rewrite <- pow_IZR in H2.
    apply ceiling_from_pow4_nonneg; [assumption | |].
    + apply Rmult_le_reg_r with (IZR b); [assumption|].
      unfold Rdiv. rewrite !Rmult_assoc, Rinv_l by lra. lra.
    + apply Rmult_lt_reg_r with (IZR b); [assumption|].
      unfold Rdiv. rewrite !Rmult_assoc, Rinv_l by lra. lra.
Qed.

End ResolutionFacts.

Section ResolutionClaim.

Lemma ceil_half_halve_up (x : Z) : ceil_half x = halve_up x.
Proof. unfold ceil_half, halve_up, cdiv. f_equal. lia. Qed.

(** The loop of [_repeat_div] is [y] successive ceiling halvings. *)
Lemma repeat_div_iter (n : nat) :
  forall x, repeat_div_loop n x = Nat.iter n halve_up x.
Proof.
  induction n as [|n IH]; intros x; [reflexivity|].
  cbn [repeat_div_loop]. rewrite IH, ceil_half_halve_up.
  now rewrite Nat.iter_swap.
Qed.

Lemma feature_resolution_value (processor : Processor) (xs : Z) :
  0 < height processor * width processor -> 0 < xs ->
  exists scale,
    is_ceiling (scale_formula (height processor) (width processor) xs) scale /\
    feature_resolution processor xs
    = Ret (Nat.iter (Z.to_nat scale) halve_up (height processor),
           Nat.iter (Z.to_nat scale) halve_up (width processor)).
Proof.
  intros Harea Hxs.
  destruct (derive_scale_is_ceil_log2_sqrt _ _ Harea Hxs) as (s & Hs & Hceil).
  exists s. split; [exact Hceil|].
  unfold feature_resolution. rewrite Hs. cbn [bind].
  unfold _repeat_div. now rewrite !repeat_div_iter.
Qed.

End ResolutionClaim.

(** C4.  On every forward call that reaches the compositor (processor
    active, at least one region mask) with a positive base area and token
    count, the feature resolution is [scale] successive ceiling halvings of
    the base height and of the base width, where [scale] is the ceiling of
    [log2 (sqrt (H * W / xs))]; it is what the blend receives.  For
    512 x 512 and 4096 tokens it is 64 x 64. *)
Theorem forward_feature_resolution :
  forall (Tensor Kwargs : Type) (size1 : Tensor -> Z)
         (blend : Processor -> Z -> Z -> Z -> Z -> Tensor -> Tensor ->
                  option Tensor -> outcome Tensor)
         (processor : Processor) (module : submodule Tensor Kwargs)
         (orig : forward_fn Tensor Kwargs)
         (x : Tensor) (context mask : option Tensor) (kwargs : Kwargs),
    active processor = true ->
    regmasks processor <> [] ->
    0 < height processor * width processor ->
    0 < size1 x ->
    exists scale dsh dsw,
      is_ceiling (scale_formula (height processor) (width processor) (size1 x))
                 scale /\
      dsh = Nat.iter (Z.to_nat scale) halve_up (height processor) /\
      dsw = Nat.iter (Z.to_nat scale) halve_up (width processor) /\
      feature_resolution processor (size1 x) = Ret (dsh, dsw) /\
      forward Tensor size1 Kwargs blend processor module orig
              x context mask kwargs
      = (if size1 (default context x) / TOKENSCON <=? 1
         then orig x context mask kwargs
         else blend processor (heads module) dsh dsw
                    (size1 (default context x) / TOKENSCON)
                    x (default context x) mask) /\
      (height processor = 512 -> width processor = 512 -> size1 x = 4096 ->
       dsh = 64 /\ dsw = 64).
Proof.
  intros Tensor Kwargs size1 blend processor module orig x context mask kwargs
         Hactive Hmasks Harea Hxs.
  destruct (feature_resolution_value processor (size1 x) Harea Hxs)
    as (scale & Hceil & Hres).
  exists scale. eexists. eexists.
  split; [exact Hceil|].
  split; [reflexivity|]. split; [reflexivity|].
  split; [exact Hres|]. split.
  - unfold forward. rewrite Hactive.
    destruct (regmasks processor) as [|m ms] eqn:Hm; [congruence|].
    replace (len (m :: ms) =? 0) with false
      by (symmetry; apply Z.eqb_neq; unfold len; simpl; lia).
    cbn [negb orb]. rewrite Hres. reflexivity.
  - intros HH HW Hx.
    assert (E : feature_resolution processor 4096 = Ret (64, 64))
      by (unfold feature_resolution; rewrite HH, HW; reflexivity).
    rewrite Hx, E in Hres. injection Hres as H1 H2.
    split; congruence.
Qed.

Lemma forward_feature_resolution_witness :
  exists scale : Z,
    is_ceiling (scale_formula 512 512 4096) scale /\
    feature_resolution
      (mkProcessor 512 512 1 false false [[[[1]]]] None true true) 4096
    = Ret (64, 64).
Proof.
  destruct (forward_feature_resolution Z unit (fun t => t)
              (fun _ _ _ _ _ x _ _ => Ret x)
              (mkProcessor 512 512 1 false false [[[[1]]]] None true true)
              (mkSubmodule "CrossAttention" 8 Intercept None)
              (fun x _ _ _ => Ret x) 4096 (Some 154) None tt
              eq_refl ltac:(discriminate) eq_refl eq_refl)
    as (scale & dsh & dsw & Hceil & _ & _ & Hres & _ & Hinst).
  destruct (Hinst eq_refl eq_refl eq_refl) as [-> ->].
  exists scale. split; [exact Hceil | exact Hres].
Defined.

(** ** Hook manager *)

Section HookFacts.

Context {Tensor Kwargs : Type}.


(** Uninstall on a submodule that was never installed does nothing. *)
Lemma patch_remove_fresh (name : string) (m : submodule Tensor Kwargs) :
  mod_original_forward m = None -> patch Tensor Kwargs true name m = m.
Proof.
  intros Hfresh. unfold patch. rewrite Hfresh.
  now destruct (targeted Tensor Kwargs name m).
Qed.

(** Uninstall twice is uninstall once. *)
Lemma patch_remove_idempotent (name : string) (m : submodule Tensor Kwargs) :
  patch Tensor Kwargs true name (patch Tensor Kwargs true name m)
  = patch Tensor Kwargs true name m.
Proof.
  remember (patch Tensor Kwargs true name m) as m' eqn:Hm'.
  unfold patch in Hm'.
  destruct (targeted Tensor Kwargs name m) eqn:Ht.
  - destruct (mod_original_forward m) as [saved|] eqn:Hs; subst m'.
    + now apply patch_remove_fresh.
    + now apply patch_remove_fresh.
  - subst m'. unfold patch. now rewrite Ht.
Qed.


Lemma unhook_fresh (root : network Tensor Kwargs) :
  Forall (fun nm => mod_original_forward (snd nm) = None) root ->
  _hook_forwards_standard Tensor Kwargs root true = root.
Proof.
  unfold _hook_forwards_standard.
  induction 1 as [|[name m] rest Hm _ IH]; [reflexivity|].
  cbn [map fst snd] in *. now rewrite patch_remove_fresh, IH.
Qed.

Lemma unhook_idempotent (root : network Tensor Kwargs) :
  _hook_forwards_standard Tensor Kwargs
    (_hook_forwards_standard Tensor Kwargs root true) true
  = _hook_forwards_standard Tensor Kwargs root true.
Proof.
  unfold _hook_forwards_standard. rewrite map_map.
  apply map_ext. intros [name m]. cbn [fst snd].
  now rewrite patch_remove_idempotent.
Qed.

End HookFacts.

(** C6.  Install is not idempotent.  On a cross-attention submodule with
    host forward [f], a second install saves the intercept of the first as
    the "original" and [f] is lost: the uninstall that follows leaves the
    intercept in place instead of [f], and a call of that intercept finds
    no saved forward to delegate to.  After a single install the uninstall
    does restore [f]. *)
Theorem hook_twice_loses_original :
  let f : forward_fn Z unit := fun x _ _ _ => Ret x in
  let name := "input_blocks.1.1.transformer_blocks.0.attn2"%string in
  let m := mkSubmodule "CrossAttention" 8 (Host f) None in
  let self := mkProcessor 512 512 1 false false [] None false false in
  let blend := fun (_ : Processor) (_ _ _ _ : Z) (x _ : Z) (_ : option Z) =>
                 Ret x in
  let p := mkProcessing [] [(name, m)] in
  let '(self1, p1) := hook_forwards Z unit self p in
  let '(self2, p2) := hook_forwards Z unit self1 p1 in
  let '(self3, p3) := unhook_forwards Z unit self2 p2 in
  snd (unhook_forwards Z unit self1 p1) = p /\
  diffusion_model p1 = [(name, mkSubmodule "CrossAttention" 8 Intercept (Some (Host f)))] /\
  diffusion_model p2 = [(name, mkSubmodule "CrossAttention" 8 Intercept (Some Intercept))] /\
  diffusion_model p3 = [(name, mkSubmodule "CrossAttention" 8 Intercept None)] /\
  p2 <> p1 /\
  p3 <> p /\
  (forall depth : nat,
      call Z (fun t => t) unit blend depth self2
           (mkSubmodule "CrossAttention" 8 Intercept (Some Intercept))
           Intercept 4096 None None tt
      = Raise RecursionError) /\
  call Z (fun t => t) unit blend 1000 self3
       (mkSubmodule "CrossAttention" 8 Intercept None)
       Intercept 4096 None None tt
  = Raise AttributeError.
Proof.
  cbv zeta. cbn [hook_forwards unhook_forwards is_forge hooked set_hooked].
  repeat split.
  - intros Heq. discriminate Heq.
  - intros Heq. discriminate Heq.
  - intros depth. induction depth as [|d IH]; [reflexivity|].
    simpl. unfold forward. simpl. exact IH.
Qed.

(** ** Mask ingestion *)

Section IngestionFacts.

Lemma close_to_spec (color px : colour) :
  close_to color px = true <-> close color px.
Proof.
  destruct px as [[r g] b], color as [[cr cg] cb]. unfold close_to, close.
  rewrite !andb_true_iff, !Z.ltb_lt. tauto.
Qed.

(** A region mask is 1 exactly at the pixels within tolerance, 0 at the
    others. *)
Lemma indicator_spec (color px : colour) :
  (indicator color px = 1 <-> close color px) /\
  (indicator color px = 0 <-> ~ close color px).
Proof.
  unfold indicator. rewrite <- close_to_spec.
  destruct (close_to color px); split; split; intros H;
    try reflexivity; try discriminate; try lia; congruence.
Qed.

Lemma any_spec (img : image) (color : colour) :
  any (color_match img color) = true <-> region_present img color.
Proof.
  unfold any, color_match, region_present. rewrite existsb_exists. split.
  - intros (brow & Hin & Hex).
    apply in_map_iff in Hin as (row & <- & Hrow).
    apply existsb_exists in Hex as (b & Hb & Htrue).
    apply in_map_iff in Hb as (px & <- & Hpx).
    exists row, px. repeat split; try assumption.
    now apply close_to_spec.
  - intros (row & px & Hrow & Hpx & Hclose).
    exists (map (close_to color) row). split; [now apply in_map|].
    apply existsb_exists. exists (close_to color px).
    split; [now apply in_map | now apply close_to_spec].
Qed.

Lemma range_spec (n c : Z) : In c (range n) <-> 0 <= c < n.
Proof.
  unfold range. rewrite in_map_iff. split.
  - intros (k & <- & Hk). apply in_seq in Hk. lia.
  - intros Hc. exists (Z.to_nat c). split; [lia|].
    apply in_seq. lia.
Qed.

Lemma subscript_colour_at (cs : list colour) (c : Z) :
  0 <= c < len cs -> subscript (Some cs) c = Ret (colour_at cs c).
Proof.
  intros [H0 Hlt]. unfold subscript, colour_at.
  destruct (Z.ltb_spec c 0) as [Hneg|_]; [lia|].
  destruct (Z.ltb_spec c 0) as [Hneg|_]; [lia|].
  destruct (nth_error cs (Z.to_nat c)) as [x|] eqn:E.
  - f_equal. symmetry. now apply nth_error_nth.
  - apply nth_error_None in E. unfold len in Hlt. lia.
Qed.

(** The first loop keeps exactly the ids whose colour occurs. *)
Lemma detect_filter (cs : list colour) (img : image) (ids : list Z) :
  Forall (fun c => 0 <= c < len cs) ids ->
  forall reguse,
  exists reguse',
    detect (Some cs) img ids reguse
    = Ret (map (fun c => (c, color_match img (colour_at cs c)))
               (filter (fun c => any (color_match img (colour_at cs c))) ids),
           reguse').
Proof.
  induction 1 as [|c ids Hc _ IH]; intros reguse.
  - exists reguse. reflexivity.
  - cbn [detect filter]. rewrite subscript_colour_at by exact Hc.
    cbn [bind].
    destruct (any (color_match img (colour_at cs c))).
    + destruct (IH (dict_set c (colour_at cs c) reguse)) as (r' & ->).
      exists r'. reflexivity.
    + apply IH.
Qed.

Lemma zip_with_map {A B C D : Type} (f : B -> C -> D) (g : A -> B)
      (h : A -> C) (l : list A) :
  zip_with f (map g l) (map h l) = map (fun x => f (g x) (h x)) l.
Proof.
  unfold zip_with. induction l as [|x l IH]; [reflexivity|].
  simpl. now rewrite IH.
Qed.

Lemma add_masks_map (F G : colour -> Z) (img : image) :
  add_masks (map (map F) img) (map (map G) img)
  = map (map (fun px => F px + G px)) img.
Proof.
  unfold add_masks. rewrite zip_with_map.
  apply map_ext. intros row. apply zip_with_map.
Qed.

Lemma add_masks_region (F : colour -> Z) (img : image) (color : colour) :
  add_masks (map (map F) img) (region_mask img color)
  = map (map (fun px => F px + indicator color px)) img.
Proof. apply add_masks_map. Qed.

Lemma astype_float_match (img : image) (color : colour) :
  astype_float (color_match img color) = region_mask img color.
Proof.
  unfold astype_float, color_match, region_mask.
  rewrite map_map. apply map_ext. intros row.
  rewrite map_map. reflexivity.
Qed.

Lemma mask_any_region (img : image) (color : colour) :
  mask_any (region_mask img color) = any (color_match img color).
Proof.
  unfold mask_any, any, region_mask, color_match.
  induction img as [|row img IH]; [reflexivity|].
  cbn [map existsb]. rewrite IH. f_equal.
  induction row as [|px row IHr]; [reflexivity|].
  cbn [map existsb]. rewrite IHr. f_equal.
  unfold indicator. now destruct (close_to color px).
Qed.

Lemma zeros_like_region (img : image) (color : colour) :
  zeros_like (region_mask img color) = map (map (fun _ : colour => 0)) img.
Proof.
  unfold zeros_like, region_mask.
  rewrite map_map. apply map_ext. intros row. now rewrite map_map.
Qed.

(** The second loop, started on a running sum given pixelwise by [F]. *)
Lemma accumulate_from (cs : list colour) (img : image) (ids : list Z) :
  Forall (fun c => any (color_match img (colour_at cs c)) = true) ids ->
  forall (F : colour -> Z) (regs : list mask_tensor),
    accumulate (map (fun c => (c, color_match img (colour_at cs c))) ids)
               (Some (map (map F) img)) regs
    = (Some (map (map (fun px =>
                         F px + coverage (map (colour_at cs) ids) px)) img),
       regs ++ map (fun c => [region_mask img (colour_at cs c)]) ids).
Proof.
  induction 1 as [|c ids Hc _ IH]; intros F regs.
  - cbn [map accumulate]. rewrite app_nil_r. do 2 f_equal.
    apply map_ext; intros row. apply map_ext; intros px.
    unfold coverage. simpl. lia.
  - cbn [map accumulate].
    rewrite astype_float_match, mask_any_region, Hc.
    rewrite add_masks_region, IH.
    f_equal.
    + f_equal. apply map_ext; intros row. apply map_ext; intros px.
      unfold coverage. simpl. lia.
    + unfold unsqueeze. now rewrite <- app_assoc.
Qed.

Lemma accumulate_fresh (cs : list colour) (img : image) (ids : list Z) :
  Forall (fun c => any (color_match img (colour_at cs c)) = true) ids ->
  accumulate (map (fun c => (c, color_match img (colour_at cs c))) ids)
             None []
  = (match ids with
     | [] => None
     | _ => Some (map (map (coverage (map (colour_at cs) ids))) img)
     end,
     map (fun c => [region_mask img (colour_at cs c)]) ids).
Proof.
  intros Hall. destruct ids as [|c ids]; [reflexivity|].
  inversion Hall as [|? ? Hc Hrest]; subst.
  cbn [map accumulate].
  rewrite astype_float_match, mask_any_region, Hc.
  rewrite zeros_like_region, add_masks_region.
  rewrite (accumulate_from cs img ids Hrest). reflexivity.
Qed.

Lemma coverage_cons (c : colour) (colors : list colour) (px : colour) :
  coverage (c :: colors) px = indicator c px + coverage colors px.
Proof. reflexivity. Qed.

Lemma coverage_nonneg (colors : list colour) (px : colour) :
  0 <= coverage colors px.
Proof.
  induction colors as [|c colors IH]; [unfold coverage; simpl; lia|].
  rewrite coverage_cons. unfold indicator. destruct (close_to c px); lia.
Qed.

Lemma coverage_zero (colors : list colour) (px : colour) :
  coverage colors px = 0 <-> existsb (fun col => close_to col px) colors = false.
Proof.
  induction colors as [|c colors IH]; [unfold coverage; simpl; tauto|].
  pose proof (coverage_nonneg colors px) as Hnn.
  rewrite coverage_cons. cbn [existsb].
  unfold indicator. destruct (close_to c px); cbn [orb].
  - split; [lia | discriminate].
  - rewrite <- IH. lia.
Qed.

Lemma complement_coverage (img : image) (colors : list colour) :
  complement (map (map (coverage colors)) img) = base_mask img colors.
Proof.
  unfold complement, base_mask. rewrite map_map.
  apply map_ext; intros row. now rewrite map_map.
Qed.

(** One minus the clipped sum is the complement of the union. *)
Lemma base_mask_uncovered (img : image) (colors : list colour) :
  base_mask img colors = uncovered img colors.
Proof.
  unfold base_mask, uncovered.
  apply map_ext; intros row. apply map_ext; intros px.
  pose proof (coverage_nonneg colors px) as Hnn.
  pose proof (coverage_zero colors px) as Hz.
  destruct (existsb (fun col => close_to col px) colors).
  - assert (coverage colors px <> 0) by (intros E; apply Hz in E; discriminate).
    unfold clip01. lia.
  - assert (E : coverage colors px = 0) by now apply Hz.
    rewrite E. reflexivity.
Qed.

End IngestionFacts.

(** Regions 1 and 3 painted on a white background, four regions
    declared: two masks, for ids 1 and 3, none for 0 and 2, and the base
    mask covers exactly the white pixels. *)
Example setup_masks_regions_1_3 :
  let c1 := (64, 128, 128) in
  let c3 := (96, 64, 128) in
  let img := [[c1; COLWHITE; c3]; [COLWHITE; COLWHITE; c3]] in
  let self := mkProcessor 512 512 1 false false [] None false false in
  exists g' self',
    setup_masks (mkGlobals None [] false) self (Some (RGB img)) 4
    = Ret (g', self') /\
    REGUSE g' = [(1, c1); (3, c3)] /\
    regmasks self' = [[[[1; 0; 0]; [0; 0; 0]]]; [[[0; 0; 1]; [0; 0; 1]]]] /\
    regbase self' = Some [[[0; 1; 0]; [1; 1; 0]]] /\
    active self' = true.
Proof.
  cbv zeta. eexists. eexists. split; [vm_compute; reflexivity|].
  repeat split.
Qed.

(** C3.  [setup_masks] on an RGB image always returns.  With [cs] the
    colour sequence it installs, region [c] of [0 .. layer_count - 1] is
    active iff some pixel is within 10 of [cs[c]] in all three channels;
    [regmasks] holds one binary mask per active region, in ascending
    order, and nothing for the others; and when some region is active,
    [regbase] is one minus the clipped sum of those masks, which is the
    complement of their union. *)
Theorem setup_masks_regions :
  forall (g : Globals) (self : Processor) (img : image) (layer_count : Z),
  exists (cs : list colour) (reguse : registry),
    let active_ids :=
      filter (fun c => any (color_match img (colour_at cs c)))
             (range layer_count) in
    let colors := map (colour_at cs) active_ids in
    deterministic_colours (Z.max (layer_count + 1) MAXCOLREG) (COLREG g)
    = Some cs /\
    setup_masks g self (Some (RGB img)) layer_count
    = Ret (mkGlobals (Some cs) reguse (VARIANT g),
           mkProcessor (height self) (width self) (batch_size self)
                       (is_forge self) (is_reforge self)
                       (map (fun c => [region_mask img (colour_at cs c)])
                            active_ids)
                       (match active_ids with
                        | [] => regbase self
                        | _ => Some [base_mask img colors]
                        end)
                       (hooked self) true) /\
    (forall c : Z,
        In c active_ids <->
        0 <= c < layer_count /\ region_present img (colour_at cs c)) /\
    base_mask img colors = uncovered img colors.
Proof.
  intros g self img layer_count.
  destruct (deterministic_colours_some
              (Z.max (layer_count + 1) MAXCOLREG) (COLREG g))
    as (cs & Hcs & Hlen); [unfold MAXCOLREG; lia|].
  assert (Hids : Forall (fun c => 0 <= c < len cs) (range layer_count)).
  { apply Forall_forall. intros c Hc. apply range_spec in Hc. lia. }
  destruct (detect_filter cs img (range layer_count) Hids (REGUSE g))
    as (reguse & Hdetect).
  exists cs, reguse. cbv zeta.
  split; [exact Hcs|]. split; [|split].
  - unfold setup_masks. cbn [to_rgb]. rewrite Hcs, Hdetect. cbn [bind].
    rewrite accumulate_fresh.
    + destruct (filter _ (range layer_count)); [reflexivity|].
      unfold unsqueeze. now rewrite complement_coverage.
    + apply Forall_forall. intros c Hc. now apply filter_In in Hc.
  - intros c. rewrite filter_In, range_spec, any_spec. tauto.
  - apply base_mask_uncovered.
Qed.

(** ** Colour allocator: hue buckets *)

Section HueFacts.

Lemma cycle_of_nonneg (i : Z) : 0 <= cycle_of i.
Proof. apply Z.log2_up_nonneg. Qed.

Lemma cycle_of_pos (i : Z) : 1 <= i -> 1 <= cycle_of i.
Proof.
  intros Hi. unfold cycle_of.
  pose proof (Z.log2_up_pos (i + 1) ltac:(lia)). lia.
Qed.

(** Entering a new cycle happens exactly after a power of two. *)
Lemma cycle_of_change (i : Z) :
  1 <= i -> cycle_of (i - 1) <> cycle_of i ->
  cycle_of i = cycle_of (i - 1) + 1 /\ i = 2 ^ cycle_of (i - 1).
Proof.
  unfold cycle_of. intros Hi Hne.
  replace (i - 1 + 1) with i in * by lia.
  replace (i + 1) with (Z.succ i) in * by lia.
  destruct (Z.log2_up_succ_or i) as [Hs|Hs]; [|congruence].
  split; [lia|].
  destruct (Z.log2_up_eq_succ_is_pow2 i Hs) as (b & Hb).
  assert (0 <= b).
  { destruct (Z.lt_ge_cases b 0) as [Hneg|]; [|assumption].
    rewrite Z.pow_neg_r in Hb by assumption. lia. }
  rewrite Hb at 2. now rewrite Z.log2_up_pow2.
Qed.

Lemma pow2_Q (z : Z) : 0 <= z -> (pow2 z == inject_Z (2 ^ z))%Q.
Proof. intros Hz. unfold pow2. now rewrite Zpower_Qpower. Qed.

Lemma inject_pow2_nonzero (z : Z) : 0 <= z -> ~ (inject_Z (2 ^ z) == 0)%Q.
Proof.
  intros Hz E. unfold Qeq in E. simpl in E.
  pose proof (Z.pow_pos_nonneg 2 z ltac:(lia) Hz). lia.
Qed.

(** A state left by the loop can be resumed from. *)
Lemma consistent_resumable (i : Z) (c : cycle) :
  1 <= i -> consistent (i - 1) c -> resumable i c.
Proof.
  intros Hi (Hp & Hc & Hd). split; [exact Hp|].
  intros Heq. rewrite <- Heq. split; [exact Hc|].
  apply Hd.
  destruct (Z.eq_dec i 1) as [->|]; [discriminate Heq | lia].
Qed.

(** The loop body re-establishes the state description. *)
Lemma step_resumable (i : Z) (c : cycle) :
  0 <= i -> (i = 0 \/ resumable i c) -> consistent i (step i c).
Proof.
  intros Hi Hpre. unfold step. fold (cycle_of i).
  destruct (Z.eqb_spec (cycle_of i) 0) as [Hz|Hnz].
  - assert (i = 0).
    { destruct (Z.eq_dec i 0); [assumption|].
      pose proof (cycle_of_pos i ltac:(lia)). lia. }
    subst i. repeat split; cbn; try reflexivity. lia.
  - assert (Hi1 : 1 <= i).
    { destruct (Z.eq_dec i 0) as [->|]; [now elim Hnz | lia]. }
    destruct Hpre as [->|(Hp & Hsame)]; [lia|].
    pose proof (cycle_of_nonneg i) as Hnn.
    destruct (Z.eqb_spec (pcyc c) (cycle_of i)) as [Heq|Hne]; cbn [negb].
    + rewrite Hp in Heq. destruct (Hsame Heq) as [Hc Hd].
      assert (Hi2 : 2 <= i).
      { destruct (Z.eq_dec i 1) as [->|]; [discriminate Heq | lia]. }
      repeat split; cbn [pcyc cval dlt].
      * congruence.
      * assert (Hnum : hue_numerator i = hue_numerator (i - 1) + 2).
        { unfold hue_numerator.
          destruct (Z.eqb_spec (i - 1) 0); [lia|].
          destruct (Z.eqb_spec i 0); [lia|].
          rewrite <- Heq. lia. }
        rewrite Hnum, inject_Z_plus.
        rewrite Qmult_plus_distr_l, Hc, <- Qmult_assoc, Hd.
        change (inject_Z 2) with (2 # 1)%Q. ring.
      * intros _. exact Hd.
    + rewrite Hp in Hne.
      destruct (cycle_of_change i Hi1 Hne) as [Hnext Hpow].
      assert (Hone : (1 / pow2 (cycle_of i) * inject_Z (2 ^ cycle_of i) == 1)%Q).
      { rewrite pow2_Q by assumption. field.
        now apply inject_pow2_nonzero. }
      repeat split; cbn [pcyc cval dlt].
      * rewrite Hone. unfold hue_numerator.
        destruct (Z.eqb_spec i 0); [lia|].
        rewrite Hnext. replace (cycle_of (i - 1) + 1 - 1) with (cycle_of (i - 1)) by lia.
        rewrite <- Hpow. replace (2 * (i - i) + 1) with 1 by lia. reflexivity.
      * intros _. exact Hone.
Qed.

Lemma step_consistent (i : Z) (c : cycle) :
  0 <= i -> (i = 0 \/ consistent (i - 1) c) -> consistent i (step i c).
Proof.
  intros Hi Hpre. apply step_resumable; [exact Hi|].
  destruct Hpre as [-> | Hc]; [now left|].
  destruct (Z.eq_dec i 0) as [-> | Hne]; [now left|].
  right. apply consistent_resumable; [lia | exact Hc].
Qed.

(** A hue known as a fraction over [2^c] has an integer bucket index at
    any finer power of two. *)
Lemma bucket_value (h : Q) (m c C : Z) :
  0 <= c <= C ->
  (h * inject_Z (2 ^ c) == inject_Z m)%Q ->
  bucket (2 ^ C) h = m * 2 ^ (C - c).
Proof.
  intros [Hc HC] Hh. unfold bucket.
  replace C with (c + (C - c)) at 1 by lia.
  rewrite Z.pow_add_r by lia.
  rewrite inject_Z_mult, Qmult_assoc, Hh, <- inject_Z_mult.
  apply Qfloor_Z.
Qed.

Lemma hue_loop_buckets (C n : Z) (k : nat) :
  forall (i : Z) (c : cycle),
    0 <= i -> (i = 0 \/ consistent (i - 1) c) ->
    i + Z.of_nat k <= n -> Z.log2_up n = C ->
    map (bucket (2 ^ C)) (hue_loop k i c)
    = map (bucket_index C) (map Z.of_nat (seq (Z.to_nat i) k)).
Proof.
  induction k as [|k IH]; intros i c Hi Hpre Hn HC; [reflexivity|].
  cbn [hue_loop seq map].
  pose proof (step_consistent i c Hi Hpre) as Hinv.
  destruct Hinv as (Hp & Hc & Hd).
  f_equal.
  - rewrite Z2Nat.id by assumption.
    apply bucket_value; [|exact Hc].
    split; [apply cycle_of_nonneg|].
    rewrite <- HC. apply Z.log2_up_le_mono. lia.
  - replace (S (Z.to_nat i)) with (Z.to_nat (i + 1)) by lia.
    apply IH; try lia.
    right. replace (i + 1 - 1) with i by lia.
    repeat split; assumption.
Qed.

End HueFacts.

Section BucketFacts.

(** From the second index on, the numerator is odd and positive. *)
Lemma hue_numerator_odd (i : Z) :
  1 <= i ->
  exists j, 0 <= j /\ hue_numerator i = 2 * j + 1 /\
            i = j + 2 ^ (cycle_of i - 1).
Proof.
  intros Hi. exists (i - 2 ^ (cycle_of i - 1)).
  unfold hue_numerator.
  destruct (Z.eqb_spec i 0); [lia|].
  pose proof (Z.log2_up_spec (i + 1) ltac:(lia)) as [Hlow _].
  fold (cycle_of i) in Hlow.
  replace (Z.pred (cycle_of i)) with (cycle_of i - 1) in Hlow by lia.
  repeat split; lia.
Qed.

Lemma odd_pow2_lt (x y a b : Z) :
  0 <= a < b -> (2 * x + 1) * 2 ^ a <> (2 * y + 1) * 2 ^ b.
Proof.
  intros [Ha Hab] E.
  replace b with (a + 1 + (b - a - 1)) in E by lia.
  rewrite !Z.pow_add_r in E by lia.
  change (2 ^ 1) with 2 in E.
  pose proof (Z.pow_pos_nonneg 2 a ltac:(lia) Ha) as Hpos.
  assert (E' : (2 * x + 1) * 2 ^ a
               = (2 * ((2 * y + 1) * 2 ^ (b - a - 1))) * 2 ^ a)
    by (rewrite E; ring).
  apply Z.mul_reg_r in E'; lia.
Qed.

Lemma odd_pow2_unique (x y a b : Z) :
  0 <= a -> 0 <= b ->
  (2 * x + 1) * 2 ^ a = (2 * y + 1) * 2 ^ b -> a = b /\ x = y.
Proof.
  intros Ha Hb E.
  destruct (Z.lt_trichotomy a b) as [Hlt | [Heq | Hgt]].
  - exfalso. now apply (odd_pow2_lt x y a b).
  - subst b. split; [reflexivity|].
    pose proof (Z.pow_pos_nonneg 2 a ltac:(lia) Ha).
    apply Z.mul_reg_r in E; lia.
  - exfalso. symmetry in E. now apply (odd_pow2_lt y x b a).
Qed.

(** Distinct indices below [n] have distinct buckets of width
    [1 / 2^C], [C] the ceiling of [log2 n]. *)
Lemma bucket_index_inj (C n i j : Z) :
  Z.log2_up n = C -> 0 <= i < n -> 0 <= j < n ->
  bucket_index C i = bucket_index C j -> i = j.
Proof.
  intros HC Hi Hj E. unfold bucket_index in E.
  assert (Hle : forall k, 0 <= k < n -> 0 <= C - cycle_of k).
  { intros k Hk. unfold cycle_of.
    pose proof (Z.log2_up_le_mono (k + 1) n ltac:(lia)). lia. }
  assert (Hpos : forall k, 1 <= k < n ->
                           0 < hue_numerator k * 2 ^ (C - cycle_of k)).
  { intros k Hk.
    destruct (hue_numerator_odd k ltac:(lia)) as (m & Hm & -> & _).
    pose proof (Z.pow_pos_nonneg 2 (C - cycle_of k) ltac:(lia)
                  (Hle k ltac:(lia))). nia. }
  destruct (Z.eq_dec i 0) as [->|Hi0], (Z.eq_dec j 0) as [->|Hj0];
    try reflexivity.
  - pose proof (Hpos j ltac:(lia)) as Hp. rewrite <- E in Hp.
    change (hue_numerator 0) with 0 in Hp. lia.
  - pose proof (Hpos i ltac:(lia)) as Hp. rewrite E in Hp.
    change (hue_numerator 0) with 0 in Hp. lia.
  - destruct (hue_numerator_odd i ltac:(lia)) as (x & Hx & Hnx & Hix).
    destruct (hue_numerator_odd j ltac:(lia)) as (y & Hy & Hny & Hjy).
    rewrite Hnx, Hny in E.
    apply odd_pow2_unique in E as [Hcyc Hxy];
      [| apply Hle; lia | apply Hle; lia].
    assert (Hsame : cycle_of i = cycle_of j) by lia.
    rewrite Hix, Hjy, Hsame, Hxy. reflexivity.
Qed.

Lemma range_NoDup (n : Z) : NoDup (range n).
Proof.
  unfold range. apply NoDup_map_NoDup_ForallPairs; [|apply seq_NoDup].
  intros a b _ _. apply Nat2Z.inj.
Qed.

Lemma hues_buckets (n : Z) :
  0 < n ->
  map (bucket (2 ^ Z.log2_up n)) (hues n)
  = map (bucket_index (Z.log2_up n)) (range n).
Proof.
  intros Hn. unfold hues, lhsv, range.
  rewrite (hue_loop_buckets (Z.log2_up n) n);
    [ now rewrite Z.sub_0_r | lia | now left | lia | reflexivity ].
Qed.

(** For every positive [n], the first [n] hues lie in pairwise distinct
    buckets of width [1 / 2^ceil(log2 n)]. *)
Lemma hues_distinct (n : Z) :
  0 < n -> NoDup (map (bucket (2 ^ Z.log2_up n)) (hues n)).
Proof.
  intros Hn. rewrite hues_buckets by assumption.
  apply NoDup_map_NoDup_ForallPairs; [|apply range_NoDup].
  intros i j Hi Hj. apply range_spec in Hi, Hj.
  now apply (bucket_index_inj (Z.log2_up n) n).
Qed.

End BucketFacts.

Section ExtensionFacts.

(** Quantisation only sees the value of a hue, not its representation. *)
Lemma Qtrunc_comp (q q' : Q) : (q == q')%Q -> Qtrunc q = Qtrunc q'.
Proof.
  intros H. unfold Qtrunc.
  rewrite (Qfloor_comp q q' H), (Qceiling_comp q q' H).
  replace (Qle_bool 0 q) with (Qle_bool 0 q'); [reflexivity|].
  apply Qleb_comp; [reflexivity | now symmetry].
Qed.

Lemma to_uint8_comp (q q' : Q) : (q == q')%Q -> to_uint8 q = to_uint8 q'.
Proof. intros H. unfold to_uint8. now rewrite (Qtrunc_comp q q' H). Qed.

Lemma quantise_comp (h h' : Q) : (h == h')%Q -> quantise h = quantise h'.
Proof.
  intros H. unfold quantise, hsv_to_rgb.
  change (Qeq_bool (1 # 2) 0) with false. cbv iota.
  assert (Hi : Qtrunc (h * 6) = Qtrunc (h' * 6))
    by (apply Qtrunc_comp; now rewrite H).
  rewrite <- Hi. generalize (Qtrunc (h * 6)). clear Hi. intros i.
  repeat match goal with
         | |- context [if ?b then _ else _] => destruct b
         end;
    (apply f_equal2; [apply f_equal2|]);
    apply to_uint8_comp; rewrite ?H; reflexivity.
Qed.

(** The state rebuilt from an existing length is one the loop can resume
    from. *)
Lemma resumed_resumable (st : Z) : 1 <= st -> resumable st (resumed st).
Proof.
  intros Hst. unfold resumable, resumed. cbn [pcyc cval dlt].
  assert (Hcyc : cycle_of (st - 1) = Z.log2_up st)
    by (unfold cycle_of; f_equal; lia).
  split; [now rewrite Hcyc|].
  intros Hsame. rewrite <- Hsame, Hcyc.
  set (c := Z.log2_up st) in *.
  assert (Hc0 : 0 <= c) by apply Z.log2_up_nonneg.
  assert (Hone : (1 / pow2 c * inject_Z (2 ^ c) == 1)%Q).
  { rewrite pow2_Q by assumption. field. now apply inject_pow2_nonzero. }
  split; [|exact Hone].
  (* [st] lies strictly inside cycle [c] *)
  assert (Hst2 : 2 <= st).
  { destruct (Z.eq_dec st 1) as [->|]; [discriminate Hsame | lia]. }
  pose proof (Z.log2_up_spec st ltac:(lia)) as [Hlow _]. fold c in Hlow.
  pose proof (Z.log2_up_spec (st + 1) ltac:(lia)) as [_ Hup].
  fold (cycle_of st) in Hup. rewrite <- Hsame, Hcyc in Hup.
  assert (Hc1 : 1 <= c) by (pose proof (Z.log2_up_pos st ltac:(lia)); lia).
  replace (Z.pred c) with (c - 1) in Hlow by lia.
  assert (Hdouble : 2 ^ c = 2 * 2 ^ (c - 1)).
  { replace c with (1 + (c - 1)) at 1 by lia.
    rewrite Z.pow_add_r by lia. reflexivity. }
  set (P := 2 ^ (c - 1)) in *.
  assert (Hdiv : st / P = 1) by (symmetry; apply (Z.div_unique st P 1 (st - P)); lia).
  assert (Hmod : (Qmod (inject_Z st) (pow2 (c - 1)) == inject_Z (st - P))%Q).
  { assert (Hp : (pow2 (c - 1) == inject_Z P)%Q) by (apply pow2_Q; lia).
    assert (HQ : (inject_Z st / pow2 (c - 1) == inject_Z st / inject_Z P)%Q)
      by (now rewrite Hp).
    unfold Qmod. rewrite (Qfloor_comp _ _ HQ), <- Zdiv_Qdiv, Hdiv, Hp.
    unfold Z.sub. rewrite inject_Z_plus, inject_Z_opp. ring. }
  rewrite Hmod.
  unfold hue_numerator. destruct (Z.eqb_spec (st - 1) 0); [lia|].
  rewrite Hcyc. fold P.
  replace (2 * (st - 1 - P) + 1) with (1 + 2 * (st - P + - 1)) by lia.
  rewrite !inject_Z_plus, !inject_Z_mult.
  change (inject_Z 1) with 1%Q. change (inject_Z 2) with (2 # 1)%Q.
  change (inject_Z (-1)) with (- (1))%Q.
  rewrite Qmult_plus_distr_l.
  setoid_replace (2 * (1 / pow2 c) * (inject_Z (st - P) - 1) * inject_Z (2 ^ c))%Q
    with (2 * (1 / pow2 c * inject_Z (2 ^ c)) * (inject_Z (st - P) - 1))%Q by ring.
  rewrite Hone. unfold Z.sub. rewrite !inject_Z_plus, !inject_Z_opp. ring.
Qed.

Lemma hue_loop_app (k1 : nat) :
  forall (k2 : nat) (i : Z) (c : cycle),
    hue_loop (k1 + k2) i c
    = hue_loop k1 i c ++ hue_loop k2 (i + Z.of_nat k1) (loop_state k1 i c).
Proof.
  induction k1 as [|k1 IH]; intros k2 i c.
  - simpl. now rewrite Z.add_0_r.
  - cbn [Nat.add hue_loop loop_state app]. rewrite IH.
    do 3 f_equal. lia.
Qed.

Lemma loop_state_resumable (k : nat) :
  forall (i : Z) (c : cycle),
    0 <= i -> (i = 0 \/ resumable i c) ->
    i + Z.of_nat k = 0 \/ resumable (i + Z.of_nat k) (loop_state k i c).
Proof.
  induction k as [|k IH]; intros i c Hi Hpre.
  - rewrite Z.add_0_r. exact Hpre.
  - cbn [loop_state].
    replace (i + Z.of_nat (S k)) with (i + 1 + Z.of_nat k) by lia.
    apply IH; [lia|]. right.
    apply consistent_resumable; [lia|].
    replace (i + 1 - 1) with i by lia.
    now apply step_resumable.
Qed.

Lemma hue_unique (h h' : Q) (m c : Z) :
  0 <= c ->
  (h * inject_Z (2 ^ c) == inject_Z m)%Q ->
  (h' * inject_Z (2 ^ c) == inject_Z m)%Q ->
  (h == h')%Q.
Proof.
  intros Hc H1 H2.
  apply (Qmult_inj_r h h' (inject_Z (2 ^ c))).
  - now apply inject_pow2_nonzero.
  - now rewrite H1, H2.
Qed.

(** The colours produced from index [i] on do not depend on which
    resumable state the loop is started from. *)
Lemma hue_loop_resume (k : nat) :
  forall (i : Z) (c c' : cycle),
    0 <= i ->
    (i = 0 \/ resumable i c) -> (i = 0 \/ resumable i c') ->
    map quantise (hue_loop k i c) = map quantise (hue_loop k i c').
Proof.
  induction k as [|k IH]; intros i c c' Hi Hc Hc'; [reflexivity|].
  cbn [hue_loop map].
  pose proof (step_resumable i c Hi Hc) as Hs.
  pose proof (step_resumable i c' Hi Hc') as Hs'.
  f_equal.
  - apply quantise_comp.
    destruct Hs as (_ & H1 & _), Hs' as (_ & H2 & _).
    apply (hue_unique _ _ _ _ (cycle_of_nonneg i) H1 H2).
  - apply IH; [lia | right | right];
      (apply consistent_resumable; [lia|]);
      now replace (i + 1 - 1) with i by lia.
Qed.

(** Extending an allocation gives the allocation one would have got in one
    go. *)
Lemma deterministic_colours_extension (m n : Z) (cs : list colour) :
  0 < m <= n ->
  deterministic_colours m None = Some cs ->
  deterministic_colours n (Some cs) = deterministic_colours n None.
Proof.
  intros [Hm Hmn] Hcs.
  destruct (deterministic_colours_fresh m Hm) as (cs' & Hcs' & Hlen).
  rewrite Hcs in Hcs'. injection Hcs' as <-.
  unfold deterministic_colours in *.
  destruct (Z.leb_spec m 0) as [|_]; [lia|].
  destruct (Z.leb_spec n 0) as [|_]; [lia|].
  injection Hcs as Hcs.
  destruct (Z.leb_spec n (len cs)) as [Hle|Hgt].
  - assert (n = m) by lia. subst n. now rewrite Hcs.
  - rewrite Hlen.
    destruct (Z.gtb_spec m 0) as [_|]; [|lia].
    unfold lhsv in *. rewrite Z.sub_0_r in *.
    replace (Z.to_nat n) with (Z.to_nat m + Z.to_nat (n - m))%nat by lia.
    rewrite hue_loop_app, map_app, Hcs. do 2 f_equal.
    rewrite Z.add_0_l, Z2Nat.id by lia.
    apply hue_loop_resume; [lia | right | ].
    + apply resumed_resumable. lia.
    + pose proof (loop_state_resumable (Z.to_nat m) 0 initial
                    ltac:(lia) (or_introl eq_refl)) as H.
      rewrite Z.add_0_l, Z2Nat.id in H by lia. exact H.
Qed.

End ExtensionFacts.

(** * Further properties *)

(** ** Colour allocator: what a sequence looks like *)

Section SequenceFacts.

Lemma deterministic_colours_len (n : Z) (l : list colour) (cs : list colour) :
  0 < n -> deterministic_colours n (Some l) = Some cs ->
  len cs = Z.max n (len l).
Proof.
  intros Hn H.
  destruct (Z.le_gt_cases n (len l)) as [Hle|Hgt].
  - rewrite deterministic_colours_keep in H by assumption.
    injection H as <-. lia.
  - destruct (deterministic_colours_extend n l Hn ltac:(lia)) as (sfx & E & Hs).
    rewrite E in H. injection H as <-. rewrite len_app. lia.
Qed.

(** A longer fresh allocation starts with the shorter one. *)
Lemma fresh_prefix (m n : Z) (cs : list colour) :
  0 < m <= n -> deterministic_colours m None = Some cs ->
  exists suffix, deterministic_colours n None = Some (cs ++ suffix).
Proof.
  intros Hmn Hcs.
  rewrite <- (deterministic_colours_extension m n cs Hmn Hcs).
  destruct (deterministic_colours_fresh m ltac:(lia)) as (cs' & Hcs' & Hlen).
  rewrite Hcs in Hcs'. injection Hcs' as <-.
  destruct (Z.eq_dec m n) as [->|Hne].
  - exists []. rewrite app_nil_r. apply deterministic_colours_keep; lia.
  - destruct (deterministic_colours_extend n cs ltac:(lia) ltac:(lia))
      as (sfx & E & _).
    now exists sfx.
Qed.

Lemma canonical_positive (l : list colour) : canonical (Some l) -> 0 < len l.
Proof.
  unfold canonical, deterministic_colours. intros H.
  destruct (Z.leb_spec (len l) 0); [discriminate H | assumption].
Qed.

(** Allocation keeps the cached sequence canonical. *)
Lemma canonical_allocate (n : Z) (lcol : option (list colour)) :
  0 < n -> canonical lcol ->
  exists cs,
    deterministic_colours n lcol = Some cs /\ canonical (Some cs) /\
    n <= len cs /\
    deterministic_colours (len cs) None = Some cs.
Proof.
  intros Hn Hcan. destruct lcol as [l|].
  - pose proof (canonical_positive l Hcan) as Hpos.
    destruct (Z.le_gt_cases n (len l)) as [Hle|Hgt].
    + exists l. rewrite deterministic_colours_keep by assumption.
      repeat split; assumption.
    + rewrite (deterministic_colours_extension (len l) n l ltac:(lia) Hcan).
      destruct (deterministic_colours_fresh n Hn) as (cs & Hcs & Hlen).
      exists cs. unfold canonical. rewrite Hlen. repeat split; try assumption. lia.
  - destruct (deterministic_colours_fresh n Hn) as (cs & Hcs & Hlen).
    exists cs. unfold canonical. rewrite Hlen. repeat split; try assumption. lia.
Qed.

Lemma colour_at_app (cs sfx : list colour) (c : Z) :
  0 <= c < len cs -> colour_at (cs ++ sfx) c = colour_at cs c.
Proof.
  intros [H0 Hlt]. unfold colour_at. apply app_nth1. unfold len in Hlt. lia.
Qed.

(** The colour of region [c] does not depend on how long the canonical
    sequence is. *)
Lemma canonical_colour_at (m : Z) (cs cm : list colour) (c : Z) :
  deterministic_colours (len cs) None = Some cs ->
  deterministic_colours m None = Some cm ->
  0 <= c < m -> m <= len cs ->
  colour_at cs c = colour_at cm c.
Proof.
  intros Hcs Hcm Hc Hm.
  destruct (fresh_prefix m (len cs) cm ltac:(lia) Hcm) as (sfx & E).
  rewrite Hcs in E. injection E as ->.
  apply colour_at_app.
  destruct (deterministic_colours_fresh m ltac:(lia)) as (cm' & Hcm' & Hlen).
  rewrite Hcm in Hcm'. injection Hcm' as <-. lia.
Qed.

End SequenceFacts.


Section HueValueFacts.

(** The hue produced at index [i + j] is [hue_numerator / 2^cycle]. *)
Lemma hue_loop_closed_form (k : nat) :
  forall (i : Z) (c : cycle) (j : nat) (h : Q),
    0 <= i -> (i = 0 \/ resumable i c) ->
    nth_error (hue_loop k i c) j = Some h ->
    (h * inject_Z (2 ^ cycle_of (i + Z.of_nat j))
     == inject_Z (hue_numerator (i + Z.of_nat j)))%Q.
Proof.
  induction k as [|k IH]; intros i c j h Hi Hpre Hnth.
  - destruct j; discriminate Hnth.
  - cbn [hue_loop] in Hnth.
    pose proof (step_resumable i c Hi Hpre) as Hcons.
    destruct j as [|j].
    + injection Hnth as <-. rewrite Z.add_0_r. apply Hcons.
    + cbn [nth_error] in Hnth.
      replace (i + Z.of_nat (S j)) with (i + 1 + Z.of_nat j) by lia.
      apply (IH (i + 1) (step i c)); [lia | | exact Hnth].
      right. apply consistent_resumable; [lia|].
      now replace (i + 1 - 1) with i by lia.
Qed.

Lemma hue_numerator_bounds (i : Z) :
  0 <= i -> 0 <= hue_numerator i < 2 ^ cycle_of i.
Proof.
  intros Hi. destruct (Z.eq_dec i 0) as [->|Hne].
  - cbn. lia.
  - destruct (hue_numerator_odd i ltac:(lia)) as (j & Hj & -> & Hij).
    pose proof (Z.log2_up_spec (i + 1) ltac:(lia)) as [_ Hup].
    fold (cycle_of i) in Hup.
    pose proof (cycle_of_pos i ltac:(lia)) as Hc.
    assert (Hd : 2 ^ cycle_of i = 2 * 2 ^ (cycle_of i - 1)).
    { replace (cycle_of i) with (1 + (cycle_of i - 1)) at 1 by lia.
      rewrite Z.pow_add_r by lia. reflexivity. }
    lia.
Qed.

Lemma fraction_bounds (h : Q) (m P : Z) :
  0 < P -> 0 <= m < P -> (h * inject_Z P == inject_Z m)%Q ->
  (0 <= h /\ h < 1)%Q.
Proof.
  intros HP [Hm0 HmP] E.
  assert (HPq : (0 < inject_Z P)%Q) by (unfold Qlt; simpl; lia).
  assert (Hm0q : (0 <= inject_Z m)%Q) by (unfold Qle; simpl; lia).
  assert (HmPq : (inject_Z m < inject_Z P)%Q) by (unfold Qlt; simpl; lia).
  rewrite <- E in Hm0q, HmPq. split.
  - destruct (Qlt_le_dec h 0) as [Hneg|]; [|assumption].
    exfalso. assert (h * inject_Z P < 0)%Q; [|Lqa.lra].
    setoid_replace 0%Q with (0 * inject_Z P)%Q by ring.
    apply Qmult_lt_compat_r; assumption.
  - destruct (Qlt_le_dec h 1) as [|Hge]; [assumption|].
    exfalso. assert (1 * inject_Z P <= h * inject_Z P)%Q; [|Lqa.lra].
    apply Qmult_le_compat_r; [assumption | Lqa.lra].
Qed.

(** Quantisation of a non-negative hue keeps every channel in 64..128. *)
Lemma to_uint8_bounds (y : Q) :
  (64 <= y)%Q -> (y <= 128)%Q -> 64 <= to_uint8 y <= 128.
Proof.
  intros Hlo Hhi. unfold to_uint8, Qtrunc.
  assert (H0 : Qle_bool 0 y = true) by (apply Qle_bool_iff; Lqa.lra).
  rewrite H0.
  pose proof (Qfloor_resp_le _ _ Hlo) as H1.
  pose proof (Qfloor_resp_le _ _ Hhi) as H2.
  change 64%Q with (inject_Z 64) in H1. change 128%Q with (inject_Z 128) in H2.
  rewrite Qfloor_Z in H1, H2.
  rewrite Z.mod_small by lia. lia.
Qed.

Lemma quantise_bounds (h : Q) :
  (0 <= h)%Q -> channels_within 64 128 (quantise h).
Proof.
  intros Hh. unfold quantise, hsv_to_rgb.
  change (Qeq_bool (1 # 2) 0) with false. cbv iota.
  assert (H6 : (0 <= h * 6)%Q) by Lqa.lra.
  assert (Hb : Qle_bool 0 (h * 6) = true) by (now apply Qle_bool_iff).
  assert (Ht : Qtrunc (h * 6) = Qfloor (h * 6))
    by (unfold Qtrunc; now rewrite Hb).
  rewrite Ht.
  pose proof (Qfloor_le (h * 6)) as Hfl.
  pose proof (Qlt_floor (h * 6)) as Hfu.
  rewrite inject_Z_plus in Hfu. change (inject_Z 1) with 1%Q in Hfu.
  set (i := Qfloor (h * 6)) in *.
  set (f := (h * 6 - inject_Z i)%Q).
  assert (Hf : (0 <= f /\ f < 1)%Q) by (unfold f; split; Lqa.lra).
  clearbody f. destruct Hf as [Hf0 Hf1].
  change (inject_Z (CBLACK + 1)) with 256%Q.
  repeat match goal with
         | |- context [if ?b then _ else _] => destruct b
         end;
    unfold channels_within; repeat split;
    apply to_uint8_bounds; Lqa.lra.
Qed.

End HueValueFacts.

Section AllocationChecks.

Lemma all_pairs_In (P : colour -> colour -> bool) (l : list colour) :
  all_pairs P l = true ->
  forall (i j : nat) (a b : colour),
    (i < j)%nat -> nth_error l i = Some a -> nth_error l j = Some b ->
    P a b = true.
Proof.
  induction l as [|x l IH]; intros Hall i j a b Hij Ha Hb.
  - destruct i; discriminate Ha.
  - cbn [all_pairs] in Hall. apply andb_prop in Hall as [Hx Hrest].
    destruct j as [|j]; [lia|]. cbn [nth_error] in Hb.
    destruct i as [|i].
    + injection Ha as <-. rewrite forallb_forall in Hx.
      apply Hx. eapply nth_error_In; eassumption.
    + cbn [nth_error] in Ha. apply (IH Hrest i j); [lia | assumption..].
Qed.

Lemma all_pairs_NoDup (l : list colour) :
  all_pairs (fun a b => negb (colour_eqb a b)) l = true -> NoDup l.
Proof.
  induction l as [|x l IH]; intros Hall; [constructor|].
  cbn [all_pairs] in Hall. apply andb_prop in Hall as [Hx Hrest].
  constructor; [|now apply IH].
  intros Hin. rewrite forallb_forall in Hx. specialize (Hx x Hin).
  destruct x as [[r g] b]. unfold colour_eqb in Hx.
  rewrite !Z.eqb_refl in Hx. discriminate Hx.
Qed.

Lemma fresh_256_NoDup :
  exists cs, deterministic_colours 256 None = Some cs /\ NoDup cs.
Proof.
  eexists. split; [vm_compute; reflexivity|].
  apply all_pairs_NoDup. vm_compute. reflexivity.
Qed.

Lemma fresh_257_repeat :
  exists cs, deterministic_colours 257 None = Some cs /\
             colour_at cs 0 = (128, 64, 64) /\ colour_at cs 256 = (128, 64, 64).
Proof.
  eexists. split; [vm_compute; reflexivity|].
  split; vm_compute; reflexivity.
Qed.

End AllocationChecks.

(** ** Colour allocator: the hues of the entries it returns *)

Section EntryHueFacts.

Lemma bucket_comp (k : Z) (h h' : Q) : (h == h')%Q -> bucket k h = bucket k h'.
Proof. intros H. unfold bucket. apply Qfloor_comp. now rewrite H. Qed.

Lemma hues_128_exact :
  forallb (fun h => Qeq_bool (hue_of (quantise h)) h) (hues 128) = true.
Proof. vm_compute. reflexivity. Qed.

(** Up to index 127 the 8-bit colour still carries its hue exactly. *)
Lemma entry_hue_exact (n : Z) (j : nat) (h : Q) :
  nth_error (hues n) j = Some h -> (j < 128)%nat ->
  (hue_of (quantise h) == h)%Q.
Proof.
  intros Hnth Hj.
  destruct (nth_error (hues 128) j) as [h'|] eqn:E'.
  2:{ apply nth_error_None in E'. unfold hues, lhsv in E'.
      rewrite hue_loop_length in E'. lia. }
  assert (Hh' : (hue_of (quantise h') == h')%Q).
  { apply Qeq_bool_iff.
    apply (proj1 (forallb_forall _ _) hues_128_exact h').
    now apply nth_error_In with j. }
  assert (Heq : (h == h')%Q).
  { unfold hues, lhsv in Hnth, E'.
    pose proof (hue_loop_closed_form _ 0 initial j h ltac:(lia)
                  (or_introl eq_refl) Hnth) as E.
    pose proof (hue_loop_closed_form _ 0 initial j h' ltac:(lia)
                  (or_introl eq_refl) E') as E1.
    rewrite <- E1 in E.
    apply Qmult_inj_r in E; [exact E|].
    apply inject_pow2_nonzero, cycle_of_nonneg. }
  rewrite (quantise_comp h h' Heq), Hh'. now symmetry.
Qed.

(** From 129 entries on the 8-bit rounding shows: entry 128 is
    [(128, 65, 64)], whose hue 1/384 lies in the bucket of entry 0. *)
Lemma fresh_129_hues :
  exists cs, deterministic_colours 129 None = Some cs /\
             colour_at cs 0 <> colour_at cs 128 /\
             bucket 256 (hue_of (colour_at cs 0)) = 0 /\
             bucket 256 (hue_of (colour_at cs 128)) = 0.
Proof.
  eexists. split; [vm_compute; reflexivity|].
  split; [vm_compute; discriminate|].
  split; vm_compute; reflexivity.
Qed.

End EntryHueFacts.

(** C8, as stated: the hues of the first [n] entries fall in pairwise
    distinct buckets of width [1 / n].  It fails for [n = 3]: the entries
    [(128, 64, 64)], [(64, 128, 128)] and [(96, 128, 64)] have the hues 0,
    1/2 and 1/4, and 0 and 1/4 both lie in the bucket [0, 1/3). *)
Lemma hue_buckets_counterexample :
  ~ (forall (n : Z) (cs : list colour),
        0 < n <= 359 ->
        deterministic_colours n None = Some cs ->
        NoDup (map (bucket n) (map hue_of cs))).
Proof.
  intros H.
  specialize (H 3 [(128, 64, 64); (64, 128, 128); (96, 128, 64)]
                ltac:(lia) eq_refl).
  vm_compute in H.
  inversion H as [|x l Hnotin _]. apply Hnotin. right; left. reflexivity.
Qed.

(** C8, amended.  For every [n] with [0 < n <= 128], the hues of the [n]
    entries the allocator returns fall in pairwise distinct buckets of
    width [1 / 2^ceil(log2 n)], that is, of width [1 / n] with [n] rounded
    up to a power of two.  The bound is sharp: for [129 <= n <= 256] the
    entries 0 and 128 are different colours whose hues share a bucket of
    that width. *)
Theorem hue_buckets_distinct :
  forall (n : Z) (cs : list colour),
    deterministic_colours n None = Some cs ->
    (0 < n <= 128 ->
     NoDup (map (bucket (2 ^ Z.log2_up n)) (map hue_of cs))) /\
    (129 <= n <= 256 ->
     colour_at cs 0 <> colour_at cs 128 /\
     bucket (2 ^ Z.log2_up n) (hue_of (colour_at cs 0))
     = bucket (2 ^ Z.log2_up n) (hue_of (colour_at cs 128))).
Proof.
  intros n cs Hcs. split.
  - intros [Hn Hle].
    unfold deterministic_colours in Hcs.
    destruct (Z.leb_spec n 0) as [H0|_]; [lia|].
    injection Hcs as <-. fold (hues n). rewrite !map_map.
    rewrite (map_ext_in _ (bucket (2 ^ Z.log2_up n))).
    + now apply hues_distinct.
    + intros h Hin. apply bucket_comp.
      apply In_nth_error in Hin as (j & Hj).
      apply (entry_hue_exact n j h Hj).
      assert (Hlt : (j < List.length (hues n))%nat)
        by (apply nth_error_Some; congruence).
      unfold hues, lhsv in Hlt. rewrite hue_loop_length in Hlt. lia.
  - intros [Hlo Hhi].
    destruct fresh_129_hues as (c129 & H129 & Hne & Hb0 & Hb128).
    destruct (deterministic_colours_fresh n ltac:(lia)) as (cs' & Hcs' & Hlen).
    rewrite Hcs in Hcs'. injection Hcs' as <-.
    rewrite <- Hlen in Hcs.
    assert (E0 : colour_at cs 0 = colour_at c129 0)
      by (apply (canonical_colour_at 129); try assumption; lia).
    assert (E128 : colour_at cs 128 = colour_at c129 128)
      by (apply (canonical_colour_at 129); try assumption; lia).
    assert (Hlog : Z.log2_up n = 8).
    { apply Z.log2_up_unique; [lia|]. change (Z.pred 8) with 7.
      change (2 ^ 7) with 128. change (2 ^ 8) with 256. lia. }
    rewrite Hlog, E0, E128. change (2 ^ 8) with 256.
    split; [exact Hne | now rewrite Hb0, Hb128].
Qed.

Lemma hue_buckets_distinct_witness :
  NoDup (map (bucket (2 ^ Z.log2_up 3))
             (map hue_of [(128, 64, 64); (64, 128, 128); (96, 128, 64)])).
Proof.
  apply (proj1 (hue_buckets_distinct 3
                  [(128, 64, 64); (64, 128, 128); (96, 128, 64)] eq_refl)).
  lia.
Defined.

(** X1.  Extending an allocation of [m] colours to [n >= m] gives exactly
    the sequence a single allocation of [n] colours gives: the state the
    loop rebuilds from the existing length continues the subdivision where
    it stopped. *)
Theorem allocation_extension_is_fresh :
  forall (m n : Z) (cs : list colour),
    0 < m <= n ->
    deterministic_colours m None = Some cs ->
    deterministic_colours n (Some cs) = deterministic_colours n None.
Proof. exact deterministic_colours_extension. Qed.

Lemma allocation_extension_is_fresh_witness :
  deterministic_colours 6 (Some [(128, 64, 64); (64, 128, 128); (96, 128, 64)])
  = deterministic_colours 6 None.
Proof.
  apply (allocation_extension_is_fresh 3 6); [lia | reflexivity].
Defined.

(** X2.  A request for [n > 0] colours returns a sequence of exactly
    [max n (len existing)] entries ([n] when nothing exists): never fewer
    than asked for, never fewer than there were. *)
Theorem allocation_length :
  forall (n : Z) (lcol : option (list colour)),
    0 < n ->
    exists cs,
      deterministic_colours n lcol = Some cs /\
      len cs = Z.max n (match lcol with Some l => len l | None => 0 end).
Proof.
  intros n lcol Hn. destruct lcol as [l|].
  - destruct (deterministic_colours_some n (Some l) Hn) as (cs & Hcs & _).
    exists cs. split; [exact Hcs|].
    now apply (deterministic_colours_len n l).
  - destruct (deterministic_colours_fresh n Hn) as (cs & Hcs & Hlen).
    exists cs. split; [exact Hcs | lia].
Qed.

Lemma allocation_length_witness :
  exists cs,
    deterministic_colours 2 (Some [(1, 2, 3); (4, 5, 6); (7, 8, 9)]) = Some cs /\
    len cs = 3.
Proof.
  destruct (allocation_length 2 (Some [(1, 2, 3); (4, 5, 6); (7, 8, 9)])
              ltac:(lia)) as (cs & H & Hlen).
  exists cs. split; [exact H | exact Hlen].
Defined.

(** X3.  The hue at index [i] of a fresh allocation is the dyadic fraction
    [(2 j + 1) / 2^c] with [c = ceil (log2 (i + 1))] and
    [j = i - 2^(c - 1)] (and 0 at index 0); it lies in [0, 1). *)
Theorem hue_closed_form :
  forall (n i : Z) (h : Q),
    0 <= i ->
    nth_error (hues n) (Z.to_nat i) = Some h ->
    (h == inject_Z (hue_numerator i) / inject_Z (2 ^ cycle_of i))%Q /\
    (0 <= h)%Q /\ (h < 1)%Q.
Proof.
  intros n i h Hi Hnth. unfold hues, lhsv in Hnth.
  pose proof (hue_loop_closed_form _ 0 initial _ h ltac:(lia)
                (or_introl eq_refl) Hnth) as E.
  rewrite Z.add_0_l, Z2Nat.id in E by assumption.
  pose proof (hue_numerator_bounds i Hi) as Hb.
  pose proof (Z.pow_pos_nonneg 2 (cycle_of i) ltac:(lia) (cycle_of_nonneg i))
    as Hpos.
  split.
  - rewrite <- E. field. now apply inject_pow2_nonzero, cycle_of_nonneg.
  - now apply (fraction_bounds h (hue_numerator i) (2 ^ cycle_of i)).
Qed.

Lemma hue_closed_form_witness :
  (nth 3 (hues 5) 0%Q == inject_Z (hue_numerator 3) / inject_Z (2 ^ cycle_of 3))%Q.
Proof.
  apply (hue_closed_form 5 3 (nth 3 (hues 5) 0%Q)); [lia | vm_compute; reflexivity].
Defined.

(** X4.  Every colour of a fresh allocation has all three channels between
    64 and 128: the 8-bit conversion never wraps, and no region colour is
    the white background. *)
Theorem allocation_channel_range :
  forall (n : Z) (cs : list colour) (c : colour),
    deterministic_colours n None = Some cs ->
    In c cs ->
    channels_within 64 128 c /\ c <> COLWHITE.
Proof.
  intros n cs c Hcs Hin.
  assert (Hw : channels_within 64 128 c).
  { unfold deterministic_colours in Hcs.
    destruct (n <=? 0); [discriminate Hcs|]. injection Hcs as <-.
    apply in_map_iff in Hin as (h & <- & Hh).
    apply In_nth_error in Hh as (j & Hj).
    apply quantise_bounds.
    pose proof (hue_loop_closed_form _ 0 initial j h ltac:(lia)
                  (or_introl eq_refl) Hj) as E.
    rewrite Z.add_0_l in E.
    pose proof (hue_numerator_bounds (Z.of_nat j) ltac:(lia)) as Hb.
    pose proof (Z.pow_pos_nonneg 2 (cycle_of (Z.of_nat j)) ltac:(lia)
                  (cycle_of_nonneg _)) as Hpos.
    now apply (fraction_bounds h _ _ Hpos Hb E). }
  split; [exact Hw|].
  intros ->. unfold channels_within, COLWHITE in Hw. lia.
Qed.

Lemma allocation_channel_range_witness :
  channels_within 64 128 (96, 128, 64).
Proof.
  apply (allocation_channel_range 3 [(128, 64, 64); (64, 128, 128); (96, 128, 64)]);
    [reflexivity | right; right; left; reflexivity].
Defined.

(** X5.  Up to 256 colours a fresh allocation has no repeated entry; from
    257 on, entry 256 repeats entry 0 (both are [(128, 64, 64)]): the hues
    differ, the 8-bit colours do not. *)
Theorem allocation_distinct_up_to_256 :
  forall (n : Z) (cs : list colour),
    deterministic_colours n None = Some cs ->
    (n <= 256 -> NoDup cs) /\
    (257 <= n -> colour_at cs 0 = (128, 64, 64) /\
                 colour_at cs 256 = (128, 64, 64)).
Proof.
  intros n cs Hcs.
  assert (Hn : 0 < n).
  { unfold deterministic_colours in Hcs.
    destruct (Z.leb_spec n 0); [discriminate Hcs | assumption]. }
  destruct (deterministic_colours_fresh n Hn) as (cs' & Hcs' & Hlen).
  rewrite Hcs in Hcs'. injection Hcs' as <-.
  split.
  - intros Hle.
    destruct fresh_256_NoDup as (big & Hbig & Hnd).
    destruct (fresh_prefix n 256 cs ltac:(lia) Hcs) as (sfx & E).
    rewrite Hbig in E. injection E as ->.
    now apply NoDup_app_remove_r in Hnd.
  - intros Hge.
    destruct fresh_257_repeat as (c257 & H257 & H0 & H256).
    destruct (fresh_prefix 257 n c257 ltac:(lia) H257) as (sfx & E).
    rewrite Hcs in E. injection E as ->.
    assert (Hl : len c257 = 257).
    { destruct (deterministic_colours_fresh 257 ltac:(lia)) as (x & Hx & Hxl).
      rewrite H257 in Hx. now injection Hx as <-. }
    rewrite !colour_at_app by lia. now split.
Qed.

Lemma allocation_distinct_up_to_256_witness :
  NoDup [(128, 64, 64); (64, 128, 128); (96, 128, 64)].
Proof.
  apply (allocation_distinct_up_to_256 3
           [(128, 64, 64); (64, 128, 128); (96, 128, 64)] eq_refl).
  lia.
Defined.

(** ** Region codec: registry, padding and colour identity *)

Section RegistryFacts.

Lemma dict_get_set_same (k : Z) (v : colour) (d : registry) :
  dict_get k (dict_set k v d) = Some v.
Proof.
  induction d as [|[k' v'] d IH]; cbn; [now rewrite Z.eqb_refl|].
  destruct (Z.eqb_spec k k') as [->|Hne]; cbn.
  - now rewrite Z.eqb_refl.
  - destruct (Z.eqb_spec k k'); [contradiction | exact IH].
Qed.

Lemma dict_get_set_other (k k0 : Z) (v : colour) (d : registry) :
  k0 <> k -> dict_get k0 (dict_set k v d) = dict_get k0 d.
Proof.
  intros Hne. induction d as [|[k' v'] d IH]; cbn.
  - destruct (Z.eqb_spec k0 k); [contradiction | reflexivity].
  - destruct (Z.eqb_spec k k') as [->|Hkk']; cbn.
    + destruct (Z.eqb_spec k0 k'); [contradiction | reflexivity].
    + destruct (Z.eqb_spec k0 k'); [reflexivity | exact IH].
Qed.

Lemma dict_set_keys_in (k k0 : Z) (v : colour) (d : registry) :
  In k0 (map fst (dict_set k v d)) <-> k0 = k \/ In k0 (map fst d).
Proof.
  induction d as [|[k' v'] d IH]; cbn.
  - intuition.
  - destruct (Z.eqb_spec k k') as [->|Hne]; cbn; [intuition|].
    rewrite IH. intuition.
Qed.

Lemma dict_set_NoDup (k : Z) (v : colour) (d : registry) :
  NoDup (map fst d) -> NoDup (map fst (dict_set k v d)).
Proof.
  induction d as [|[k' v'] d IH]; cbn; intros Hnd.
  - constructor; [intros [] | constructor].
  - inversion Hnd as [|? ? Hnotin Hrest]; subst.
    destruct (Z.eqb_spec k k') as [->|Hne]; cbn.
    + now constructor.
    + constructor; [|now apply IH].
      rewrite dict_set_keys_in. intros [E|Hin]; [congruence | contradiction].
Qed.

End RegistryFacts.

Section PaddingFacts.

Lemma removelast_snoc {A : Type} (l : list A) (x : A) :
  removelast (l ++ [x]) = l.
Proof. apply removelast_last. Qed.

Lemma paste_row_padded (src : list colour) (k : nat) :
  paste_row src (repeat COLWHITE (List.length src + k))
  = src ++ repeat COLWHITE k.
Proof.
  induction src as [|s src IH]; cbn; [now destruct k|].
  now rewrite IH.
Qed.

Lemma paste_padded (src : image) (w k extra : nat) :
  Forall (fun row => List.length row = w) src ->
  paste src (repeat (repeat COLWHITE (w + k)) (List.length src + extra))
  = map (fun row => row ++ repeat COLWHITE k) src
    ++ repeat (repeat COLWHITE (w + k)) extra.
Proof.
  induction 1 as [|row src Hrow _ IH]; cbn; [now destruct extra|].
  rewrite IH. f_equal. f_equal. rewrite <- Hrow. apply paste_row_padded.
Qed.

Lemma rectangular_lengths (w : Z) (a : image) :
  rectangular w a -> Forall (fun row => List.length row = Z.to_nat w) a.
Proof.
  unfold rectangular, len. apply Forall_impl. intros row H. lia.
Qed.

(** Stripping the padded canvas gives back the image pasted on it. *)
Lemma strip_paste_canvas (v : bool) (img2 : image) :
  rectangular (shape1 img2) img2 ->
  let pad := if v then 1 else 0 in
  strip v (paste img2 (white_canvas (shape0 img2 + pad) (shape1 img2 + pad)))
  = img2.
Proof.
  intros Hrect pad. apply rectangular_lengths in Hrect.
  unfold white_canvas, shape0, len.
  assert (Hw : 0 <= shape1 img2) by (unfold shape1; destruct img2; [lia | apply len_nonneg]).
  destruct v; unfold pad, strip.
  - replace (Z.to_nat (Z.of_nat (List.length img2) + 1))
      with (List.length img2 + 1)%nat by lia.
    replace (Z.to_nat (shape1 img2 + 1)) with (Z.to_nat (shape1 img2) + 1)%nat by lia.
    rewrite (paste_padded img2 _ 1 1 Hrect). cbn [repeat].
    rewrite removelast_snoc, map_map.
    rewrite <- (map_id img2) at 2. apply map_ext.
    intros row. apply removelast_snoc.
  - rewrite !Z.add_0_r. rewrite Nat2Z.id.
    pose proof (paste_padded img2 (Z.to_nat (shape1 img2)) 0 0 Hrect) as E.
    rewrite !Nat.add_0_r in E. rewrite E. cbn [repeat].
    rewrite app_nil_r. rewrite <- (map_id img2) at 2. apply map_ext.
    intros row. apply app_nil_r.
Qed.

End PaddingFacts.

Section CommitFacts.

Variable contours : Type.
Variable find : image -> outcome contours.
Variable fill : image -> contours -> colour -> outcome image.

(** What a stroke commit that returns has done, spelled out. *)
Lemma detect_polygons_effect (g g' : Globals) (img : strokes) (num next : Z)
      (skimg : image) :
  detect_polygons contours find fill g img num = Ret (g', skimg, next) ->
  exists (a b : image) (cnts : contours) (color : colour) (img2 : image)
         (colreg : option (list colour)) (reguse : registry),
    let pad := if negb (VARIANT g) then 1 else 0 in
    stroke_image img = Some a /\ stroke_mask img = Some b /\
    find (strip (VARIANT g) b) = Ret cnts /\
    fill (strip (VARIANT g) a) cnts color = Ret img2 /\
    (if num <? 0
     then color = COLWHITE /\ colreg = COLREG g /\ reguse = REGUSE g
     else colreg = deterministic_colours (num + 1) (COLREG g) /\
          subscript colreg num = Ret color /\
          reguse = dict_set num color (REGUSE g)) /\
    g' = mkGlobals colreg reguse (negb (VARIANT g)) /\
    skimg = paste img2 (white_canvas (shape0 img2 + pad) (shape1 img2 + pad)) /\
    next = if (num >=? 0) && (num + 1 <=? CBLACK) then num + 1 else num.
Proof.
  intros H. unfold detect_polygons in H.
  destruct (stroke_image img) as [a|]; [|discriminate H].
  destruct (stroke_mask img) as [b|]; [|discriminate H].
  cbn [slice bind] in H.
  destruct (find (strip (VARIANT g) b)) as [cnts|e] eqn:Hfind;
    [|discriminate H].
  cbn [bind] in H.
  exists a, b, cnts.
  destruct (Z.ltb_spec num 0) as [Hneg|Hpos].
  - cbn [bind] in H.
    destruct (fill (strip (VARIANT g) a) cnts COLWHITE) as [img2|e] eqn:Hfill;
      [|discriminate H].
    cbn [bind] in H. unfold create_canvas in H. cbn in H.
    injection H as <- <- <-.
    exists COLWHITE, img2, (COLREG g), (REGUSE g). cbv zeta.
    destruct g as [cr ru v]. cbn. repeat split; assumption.
  - destruct (region_colour_defined num (COLREG g) Hpos) as (color & Hc).
    rewrite Hc in H. cbn [bind] in H.
    destruct (fill (strip (VARIANT g) a) cnts color) as [img2|e] eqn:Hfill;
      [|discriminate H].
    cbn [bind] in H. unfold create_canvas in H. cbn in H.
    injection H as <- <- <-.
    exists color, img2, (deterministic_colours (num + 1) (COLREG g)),
      (dict_set num color (REGUSE g)). cbv zeta.
    repeat split; assumption.
Qed.

End CommitFacts.

(** X6.  The canvas a stroke commit returns carries the padding of the new
    parity: stripping it with the toggled [VARIANT] gives back exactly the
    filled image, so the next commit works on what this one painted. *)
Theorem canvas_padding_round_trip :
  forall (contours : Type) (find : image -> outcome contours)
         (fill : image -> contours -> colour -> outcome image)
         (g g' : Globals) (img : strokes) (num next : Z) (skimg : image),
    (forall a c col img2,
        fill a c col = Ret img2 -> rectangular (shape1 img2) img2) ->
    detect_polygons contours find fill g img num = Ret (g', skimg, next) ->
    VARIANT g' = negb (VARIANT g) /\
    exists (a b : image) (cnts : contours) (color : colour),
      stroke_image img = Some a /\ stroke_mask img = Some b /\
      find (strip (VARIANT g) b) = Ret cnts /\
      fill (strip (VARIANT g) a) cnts color
      = Ret (strip (VARIANT g') skimg).
Proof.
  intros contours find fill g g' img num next skimg Hrect H.
  destruct (detect_polygons_effect contours find fill g g' img num next skimg H)
    as (a & b & cnts & color & img2 & colreg & reguse
        & Ha & Hb & Hfind & Hfill & _ & -> & -> & _).
  split; [reflexivity|]. exists a, b, cnts, color. cbn [VARIANT].
  repeat split; try assumption.
  rewrite Hfill. f_equal. symmetry.
  apply strip_paste_canvas. now apply (Hrect _ _ _ _ Hfill).
Qed.

Lemma canvas_padding_round_trip_witness :
  let find := fun m : image =>
                match m with [] => Raise CvError | _ => Ret tt end in
  let fill := fun (_ : image) (_ : unit) (c : colour) => Ret [[c; c]] in
  let img := mkStrokes (Some [[COLWHITE; COLWHITE]])
                       (Some [[COLWHITE; COLWHITE]]) in
  exists (a b : image) (cnts : unit) (color : colour),
    stroke_image img = Some a /\ stroke_mask img = Some b /\
    find (strip false b) = Ret cnts /\
    fill (strip false a) cnts color
    = Ret (strip true [[(128, 64, 64); (128, 64, 64); COLWHITE];
                       [COLWHITE; COLWHITE; COLWHITE]]).
Proof.
  intros find fill img.
  refine (proj2 (canvas_padding_round_trip unit find fill
                   (mkGlobals None [] false)
                   (mkGlobals (Some [(128, 64, 64)]) [(0, (128, 64, 64))] true)
                   img 0 1 _ _ _)).
  - intros a c col img2 H. injection H as <-. repeat constructor.
  - vm_compute. reflexivity.
Defined.

Section CommitInvariants.

Lemma allocate_appends (n : Z) (l : list colour) :
  0 < n -> exists sfx, deterministic_colours n (Some l) = Some (l ++ sfx).
Proof.
  intros Hn. destruct (Z.le_gt_cases n (len l)) as [Hle|Hgt].
  - exists []. rewrite app_nil_r. now apply deterministic_colours_keep.
  - destruct (deterministic_colours_extend n l Hn ltac:(lia)) as (sfx & E & _).
    now exists sfx.
Qed.

(** The first loop of [setup_masks] only writes registry entries, one per
    detected id. *)
Lemma detect_registry (cs : list colour) (img : image) (ids : list Z) :
  Forall (fun c => 0 <= c < len cs) ids ->
  forall reguse d reguse',
    detect (Some cs) img ids reguse = Ret (d, reguse') ->
    (NoDup (map fst reguse) -> NoDup (map fst reguse')) /\
    (forall k,
        dict_get k reguse'
        = if existsb (fun c => (c =? k) && any (color_match img (colour_at cs c))) ids
          then Some (colour_at cs k) else dict_get k reguse).
Proof.
  induction 1 as [|c ids Hc _ IH]; intros reguse d reguse' H.
  - cbn in H. injection H as <- <-. split; [auto | reflexivity].
  - cbn [detect] in H. rewrite subscript_colour_at in H by exact Hc.
    cbn [bind] in H. cbn [existsb].
    destruct (any (color_match img (colour_at cs c))) eqn:Hany.
    + destruct (detect (Some cs) img ids (dict_set c (colour_at cs c) reguse))
        as [[d0 r0]|e] eqn:Hd; [|discriminate H].
      cbn in H. injection H as <- <-.
      destruct (IH _ _ _ Hd) as [Hnd Hget]. split.
      * intros Hn. apply Hnd. now apply dict_set_NoDup.
      * intros k. rewrite Hget.
        destruct (existsb _ ids); [now rewrite orb_true_r|].
        rewrite orb_false_r, andb_true_r.
        destruct (Z.eqb_spec c k) as [->|Hne].
        -- apply dict_get_set_same.
        -- apply dict_get_set_other. congruence.
    + destruct (IH _ _ _ H) as [Hnd Hget]. split; [exact Hnd|].
      intros k. rewrite Hget. now rewrite andb_false_r.
Qed.

Lemma setup_masks_globals (g : Globals) (self : Processor) (mi : mask_input)
      (layer_count : Z) :
  let img := to_rgb mi in
  exists cs reguse self',
    deterministic_colours (Z.max (layer_count + 1) MAXCOLREG) (COLREG g) = Some cs /\
    MAXCOLREG <= len cs /\ layer_count < len cs /\
    setup_masks g self (Some mi) layer_count
    = Ret (mkGlobals (Some cs) reguse (VARIANT g), self') /\
    active self' = true /\
    regmasks self'
    = map (fun c => [region_mask img (colour_at cs c)])
          (filter (fun c => any (color_match img (colour_at cs c)))
                  (range layer_count)) /\
    (regmasks self' = [] -> regbase self' = regbase self) /\
    exists d, detect (Some cs) img (range layer_count) (REGUSE g) = Ret (d, reguse).
Proof.
  intros img.
  destruct (deterministic_colours_some
              (Z.max (layer_count + 1) MAXCOLREG) (COLREG g))
    as (cs & Hcs & Hlen); [unfold MAXCOLREG; lia|].
  assert (Hids : Forall (fun c => 0 <= c < len cs) (range layer_count)).
  { apply Forall_forall. intros c Hc. apply range_spec in Hc. lia. }
  destruct (detect_filter cs img (range layer_count) Hids (REGUSE g))
    as (reguse & Hdetect).
  assert (Hrun : exists self',
             setup_masks g self (Some mi) layer_count
             = Ret (mkGlobals (Some cs) reguse (VARIANT g), self') /\
             active self' = true /\
             regmasks self'
             = map (fun c => [region_mask img (colour_at cs c)])
                   (filter (fun c => any (color_match img (colour_at cs c)))
                           (range layer_count)) /\
             (regmasks self' = [] -> regbase self' = regbase self)).
  { unfold setup_masks. fold img. rewrite Hcs, Hdetect. cbn [bind].
    rewrite accumulate_fresh
      by (apply Forall_forall; intros c Hc; now apply filter_In in Hc).
    eexists. split; [reflexivity|]. cbn [active regmasks regbase].
    split; [reflexivity|]. split; [reflexivity|].
    destruct (filter _ (range layer_count)); [reflexivity | discriminate]. }
  destruct Hrun as (self' & Hrun & Hact & Hregs & Hbase).
  exists cs, reguse, self'.
  split; [exact Hcs|]. split; [lia|]. split; [lia|].
  split; [exact Hrun|]. split; [exact Hact|]. split; [exact Hregs|].
  split; [exact Hbase|]. eexists. exact Hdetect.
Qed.

End CommitInvariants.

(** X7.  Colours already issued never change: a stroke commit and mask
    ingestion only append to the cached colour sequence, and mask
    extraction leaves it alone. *)
Theorem colreg_append_only :
  forall (contours : Type) (find : image -> outcome contours)
         (fill : image -> contours -> colour -> outcome image)
         (g : Globals) (l : list colour),
    COLREG g = Some l ->
    (forall img num g' canvas next,
        detect_polygons contours find fill g img num = Ret (g', canvas, next) ->
        exists sfx, COLREG g' = Some (l ++ sfx)) /\
    (forall self mask_image layer_count g' self',
        setup_masks g self mask_image layer_count = Ret (g', self') ->
        exists sfx, COLREG g' = Some (l ++ sfx)) /\
    (forall c num mult g' m,
        detect_mask g c num mult = Ret (g', m) -> COLREG g' = Some l).
Proof.
  intros contours find fill g l Hl. repeat split.
  - intros img num g' canvas next H.
    destruct (detect_polygons_effect contours find fill g g' img num next
                canvas H)
      as (a & b & cnts & color & img2 & colreg & reguse
          & _ & _ & _ & _ & Hcase & -> & _).
    cbn [COLREG].
    destruct (Z.ltb_spec num 0) as [Hneg|Hpos].
    + destruct Hcase as (_ & -> & _). exists []. now rewrite app_nil_r.
    + destruct Hcase as (-> & _ & _). rewrite Hl.
      apply allocate_appends. lia.
  - intros self [mi|] layer_count g' self' H.
    + destruct (setup_masks_globals g self mi layer_count)
        as (cs & reguse & s' & Hcs & _ & _ & E & _).
      rewrite E in H. injection H as <- _. cbn [COLREG].
      rewrite Hl in Hcs. rewrite <- Hcs.
      apply allocate_appends. unfold MAXCOLREG. lia.
    + cbn in H. injection H as <- _. exists []. now rewrite app_nil_r.
  - intros c num mult g' m H. unfold detect_mask in H.
    destruct (canvas_image c) as [img|]; [|injection H as <- _; exact Hl].
    destruct (num <? 0).
    + destruct (len (dict_values (REGUSE g)) =? 0);
        injection H as <- _; exact Hl.
    + destruct (subscript (deterministic_colours (num + 1) None) (-1))
        as [color|e]; [|discriminate H].
      cbn [bind] in H. injection H as <- _.
      destruct (_ && _); exact Hl.
Qed.

Lemma colreg_append_only_witness :
  exists sfx,
    COLREG (mkGlobals (Some [(128, 64, 64); (64, 128, 128); (96, 128, 64)])
                      [(2, (96, 128, 64))] true)
    = Some ([(128, 64, 64)] ++ sfx).
Proof.
  refine (proj1 (colreg_append_only unit
                   (fun m => match m with [] => Raise CvError | _ => Ret tt end)
                   (fun out _ _ => Ret out)
                   (mkGlobals (Some [(128, 64, 64)]) [] false)
                   [(128, 64, 64)] eq_refl)
                (mkStrokes (Some [[COLWHITE]]) (Some [[COLWHITE]])) 2 _
                [[COLWHITE; COLWHITE]; [COLWHITE; COLWHITE]] 3 _).
  vm_compute. reflexivity.
Defined.

(** X8.  The cached colour sequence stays canonical: if it is absent or
    equal to one fresh allocation of its length before a stroke commit, a
    mask extraction or mask ingestion, it is so afterwards.  (It starts
    absent.) *)
Theorem colreg_stays_canonical :
  forall (contours : Type) (find : image -> outcome contours)
         (fill : image -> contours -> colour -> outcome image)
         (g : Globals),
    canonical (COLREG g) ->
    (forall img num g' canvas next,
        detect_polygons contours find fill g img num = Ret (g', canvas, next) ->
        canonical (COLREG g')) /\
    (forall self mask_image layer_count g' self',
        setup_masks g self mask_image layer_count = Ret (g', self') ->
        canonical (COLREG g')) /\
    (forall c num mult g' m,
        detect_mask g c num mult = Ret (g', m) -> canonical (COLREG g')).
Proof.
  intros contours find fill g Hcan. repeat split.
  - intros img num g' canvas next H.
    destruct (detect_polygons_effect contours find fill g g' img num next
                canvas H)
      as (a & b & cnts & color & img2 & colreg & reguse
          & _ & _ & _ & _ & Hcase & -> & _).
    cbn [COLREG].
    destruct (Z.ltb_spec num 0) as [Hneg|Hpos].
    + destruct Hcase as (_ & -> & _). exact Hcan.
    + destruct Hcase as (-> & _ & _).
      destruct (canonical_allocate (num + 1) (COLREG g) ltac:(lia) Hcan)
        as (cs & -> & Hc & _). exact Hc.
  - intros self [mi|] layer_count g' self' H.
    + destruct (setup_masks_globals g self mi layer_count)
        as (cs & reguse & s' & Hcs & _ & _ & E & _).
      rewrite E in H. injection H as <- _. cbn [COLREG].
      destruct (canonical_allocate (Z.max (layer_count + 1) MAXCOLREG)
                  (COLREG g) ltac:(unfold MAXCOLREG; lia) Hcan)
        as (cs' & Hcs' & Hc & _).
      rewrite Hcs in Hcs'. injection Hcs' as <-. exact Hc.
    + cbn in H. injection H as <- _. exact Hcan.
  - intros c num mult g' m H. unfold detect_mask in H.
    destruct (canvas_image c) as [img|]; [|injection H as <- _; exact Hcan].
    destruct (num <? 0).
    + destruct (len (dict_values (REGUSE g)) =? 0);
        injection H as <- _; exact Hcan.
    + destruct (subscript (deterministic_colours (num + 1) None) (-1))
        as [color|e]; [|discriminate H].
      cbn [bind] in H. injection H as <- _.
      destruct (_ && _); exact Hcan.
Qed.

Lemma colreg_stays_canonical_witness :
  canonical (Some [(128, 64, 64); (64, 128, 128); (96, 128, 64)]).
Proof.
  refine (proj1 (colreg_stays_canonical unit
                   (fun m => match m with [] => Raise CvError | _ => Ret tt end)
                   (fun out _ _ => Ret out)
                   (mkGlobals (Some [(128, 64, 64)]) [] false) _)
                (mkStrokes (Some [[COLWHITE]]) (Some [[COLWHITE]])) 2
                (mkGlobals (Some [(128, 64, 64); (64, 128, 128); (96, 128, 64)])
                           [(2, (96, 128, 64))] true)
                [[COLWHITE; COLWHITE]; [COLWHITE; COLWHITE]] 3 _).
  - vm_compute. reflexivity.
  - vm_compute. reflexivity.
Defined.

Section RoundTripFacts.

Lemma subscript_minus_one (l : list colour) :
  0 < len l -> subscript (Some l) (-1) = Ret (colour_at l (len l - 1)).
Proof.
  intros Hpos. unfold subscript. change (-1 <? 0) with true. cbv iota.
  destruct (Z.ltb_spec (len l + -1) 0) as [Hneg|_]; [lia|].
  replace (len l + -1) with (len l - 1) by lia.
  unfold colour_at.
  destruct (nth_error l (Z.to_nat (len l - 1))) as [x|] eqn:E.
  - f_equal. symmetry. now apply nth_error_nth.
  - apply nth_error_None in E. unfold len in *. lia.
Qed.

(** On a canonical sequence, the colour a commit paints region [num] with
    is the colour mask extraction looks for. *)
Lemma commit_colour_is_extract_colour (lcol : option (list colour)) (num : Z) :
  canonical lcol -> 0 <= num ->
  subscript (deterministic_colours (num + 1) lcol) num
  = subscript (deterministic_colours (num + 1) None) (-1).
Proof.
  intros Hcan Hnum.
  destruct (canonical_allocate (num + 1) lcol ltac:(lia) Hcan)
    as (cs & -> & _ & Hlen & Hfresh).
  destruct (deterministic_colours_fresh (num + 1) ltac:(lia))
    as (cm & Hcm & Hlm).
  rewrite Hcm, subscript_colour_at by lia.
  rewrite subscript_minus_one by lia. f_equal.
  rewrite Hlm. replace (num + 1 - 1) with num by lia.
  apply (canonical_colour_at (num + 1)); try assumption; lia.
Qed.

Lemma existsb_range (P : Z -> bool) (n k : Z) :
  existsb (fun c => (c =? k) && P c) (range n)
  = (0 <=? k) && (k <? n) && P k.
Proof.
  destruct (existsb _ (range n)) eqn:E.
  - apply existsb_exists in E as (c & Hc & Hb).
    apply andb_prop in Hb as [Hck HP]. apply Z.eqb_eq in Hck. subst c.
    apply range_spec in Hc. rewrite HP.
    destruct (Z.leb_spec 0 k), (Z.ltb_spec k n); first [lia | reflexivity].
  - destruct (Z.leb_spec 0 k), (Z.ltb_spec k n); try reflexivity.
    destruct (P k) eqn:HP; [|reflexivity].
    assert (Hex : existsb (fun c => (c =? k) && P c) (range n) = true).
    { apply existsb_exists. exists k. split; [apply range_spec; lia|].
      now rewrite Z.eqb_refl, HP. }
    congruence.
Qed.

End RoundTripFacts.

(** X10.  Commit, then extract: on a canonical colour sequence and for a
    region id [num >= 0], whenever [draw_region] returns, the mask is 255
    exactly at the canvas pixels that carry the colour the commit painted
    with, and 0 elsewhere; that colour is entry [num] of the colour
    sequence and the registry's entry for [num]; the canvas is the filled
    image with the padding of the new parity. *)
Theorem draw_region_marks_paint :
  forall (contours : Type) (find : image -> outcome contours)
         (fill : image -> contours -> colour -> outcome image)
         (g g' : Globals) (img : strokes) (num next : Z) (canvas : image)
         (m : option mask),
    canonical (COLREG g) -> 0 <= num ->
    draw_region contours find fill g img num = Ret (g', canvas, next, m) ->
    exists (a b : image) (cnts : contours) (color : colour) (img2 : image),
      let pad := if negb (VARIANT g) then 1 else 0 in
      stroke_image img = Some a /\ stroke_mask img = Some b /\
      find (strip (VARIANT g) b) = Ret cnts /\
      fill (strip (VARIANT g) a) cnts color = Ret img2 /\
      canvas = paste img2 (white_canvas (shape0 img2 + pad) (shape1 img2 + pad)) /\
      m = Some (map (map (fun px => if colour_eqb color px then 255 else 0))
                    canvas) /\
      subscript (COLREG g') num = Ret color /\
      dict_get num (REGUSE g') = Some color /\
      next = (if num + 1 <=? 255 then num + 1 else num) /\
      canonical (COLREG g').
Proof.
  intros contours find fill g g' img num next canvas m Hcan Hnum H.
  unfold draw_region in H.
  destruct (detect_polygons contours find fill g img num)
    as [[[g1 img_out] num2]|e] eqn:E; [|discriminate H].
  cbn [bind] in H.
  destruct (detect_polygons_effect contours find fill g g1 img num num2
              img_out E)
    as (a & b & cnts & color & img2 & colreg & reguse
        & Ha & Hb & Hfind & Hfill & Hcase & Hg1 & Hcanvas & Hnext).
  destruct (Z.ltb_spec num 0) as [Hneg|_]; [lia|].
  destruct Hcase as (Hcolreg & Hsub & Hreg).
  pose proof Hsub as Hsub'.
  rewrite Hcolreg, commit_colour_is_extract_colour in Hsub' by assumption.
  assert (Hge : (num >=? 0) = true)
    by (destruct (Z.geb_spec num 0); [reflexivity | lia]).
  unfold detect_mask in H. cbn [canvas_image] in H.
  destruct (Z.ltb_spec num 0) as [Hneg|_]; [lia|].
  rewrite Hsub' in H. cbn [bind] in H. rewrite Hge in H.
  injection H as Hg' <- <- <-.
  exists a, b, cnts, color, img2. cbv zeta.
  assert (Hc : canonical colreg).
  { subst colreg.
    destruct (canonical_allocate (num + 1) (COLREG g) ltac:(lia) Hcan)
      as (cs & -> & Hc & _). exact Hc. }
  split; [exact Ha|]. split; [exact Hb|]. split; [exact Hfind|].
  split; [exact Hfill|]. split; [exact Hcanvas|].
  split.
  { f_equal. unfold scale_mask, CBLACK. rewrite map_map.
    apply map_ext. intros row. now rewrite map_map. }
  subst g'. rewrite Hg1.
  split; [|split; [|split]].
  - destruct (_ && true); cbn [set_REGUSE COLREG]; exact Hsub.
  - destruct (_ && true); cbn [set_REGUSE REGUSE]; subst reguse;
      rewrite ?dict_get_set_same; reflexivity.
  - rewrite Hnext, Hge. unfold CBLACK. reflexivity.
  - destruct (_ && true); cbn [set_REGUSE COLREG]; exact Hc.
Qed.

Lemma draw_region_marks_paint_witness :
  let find := fun m : image =>
                match m with [] => Raise CvError | _ => Ret tt end in
  let fill := fun (_ : image) (_ : unit) (c : colour) => Ret [[c; COLWHITE]] in
  let img := mkStrokes (Some [[COLWHITE; COLWHITE]])
                       (Some [[COLWHITE; COLWHITE]]) in
  draw_region unit find fill (mkGlobals None [] false) img 0
  = Ret (mkGlobals (Some [(128, 64, 64)]) [(0, (128, 64, 64))] true,
         [[(128, 64, 64); COLWHITE; COLWHITE]; [COLWHITE; COLWHITE; COLWHITE]],
         1,
         Some [[255; 0; 0]; [0; 0; 0]]) /\
  dict_get 0 [(0, (128, 64, 64))] = Some (128, 64, 64).
Proof.
  intros find fill img.
  assert (E : draw_region unit find fill (mkGlobals None [] false) img 0
              = Ret (mkGlobals (Some [(128, 64, 64)]) [(0, (128, 64, 64))] true,
                     [[(128, 64, 64); COLWHITE; COLWHITE];
                      [COLWHITE; COLWHITE; COLWHITE]],
                     1,
                     Some [[255; 0; 0]; [0; 0; 0]]))
    by (vm_compute; reflexivity).
  split; [exact E|].
  destruct (draw_region_marks_paint unit find fill (mkGlobals None [] false)
              _ img 0 _ _ _ I ltac:(lia) E)
    as (a & b & cnts & color & img2 & _ & _ & _ & _ & _ & _ & Hs & Hd & _).
  cbn in Hs. injection Hs as <-. exact Hd.
Defined.

(** X11.  After mask ingestion the registry maps every active region id
    to its colour and keeps the entries of all other ids as they were. *)
Theorem setup_masks_registry :
  forall (g : Globals) (self : Processor) (mask_image : mask_input)
         (layer_count : Z),
  exists (cs : list colour) (g' : Globals) (self' : Processor),
    setup_masks g self (Some mask_image) layer_count = Ret (g', self') /\
    COLREG g' = Some cs /\
    forall k : Z,
      dict_get k (REGUSE g')
      = if (0 <=? k) && (k <? layer_count)
           && any (color_match (to_rgb mask_image) (colour_at cs k))
        then Some (colour_at cs k)
        else dict_get k (REGUSE g).
Proof.
  intros g self mi layer_count.
  destruct (setup_masks_globals g self mi layer_count)
    as (cs & reguse & s' & Hcs & _ & Hlen & E & _ & _ & _ & d & Hd).
  exists cs. eexists. eexists. split; [exact E|].
  split; [reflexivity|]. intros k. cbn [REGUSE].
  assert (Hids : Forall (fun c => 0 <= c < len cs) (range layer_count)).
  { apply Forall_forall. intros c Hc. apply range_spec in Hc. lia. }
  rewrite (proj2 (detect_registry cs _ _ Hids _ _ _ Hd) k).
  now rewrite existsb_range.
Qed.

(** ** Mask ingestion: which pixels a region can claim *)

Section ToleranceFacts.

(** Two colours that one pixel matches are within 18 of each other on
    every channel. *)
Lemma close_both_not_apart (a b px : colour) :
  close a px -> close b px -> apart 19 a b = false.
Proof.
  destruct a as [[r1 g1] b1], b as [[r2 g2] b2], px as [[r g0] b0].
  unfold close, apart. intros (H1 & H2 & H3) (H4 & H5 & H6).
  destruct (Z.leb_spec 19 (Z.abs (r1 - r2))); [lia|].
  destruct (Z.leb_spec 19 (Z.abs (g1 - g2))); [lia|].
  destruct (Z.leb_spec 19 (Z.abs (b1 - b2))); [lia|].
  reflexivity.
Qed.

Lemma fresh_9_apart :
  exists cs, deterministic_colours 9 None = Some cs /\
             all_pairs (apart 19) cs = true.
Proof. eexists. split; vm_compute; reflexivity. Qed.

Lemma fresh_19_close :
  exists cs, deterministic_colours 19 None = Some cs /\
             close_to (colour_at cs 9) (colour_at cs 18) = true /\
             colour_at cs 9 <> colour_at cs 18.
Proof.
  eexists. split; [vm_compute; reflexivity|].
  split; [vm_compute; reflexivity | vm_compute; discriminate].
Qed.

Lemma close_to_refl (c : colour) : close_to c c = true.
Proof.
  apply close_to_spec. destruct c as [[r g] b]. unfold close.
  rewrite !Z.sub_diag. cbn. lia.
Qed.

(** A canonical sequence holds the fresh colours. *)
Lemma canonical_In_fresh (cs : list colour) (c : colour) :
  deterministic_colours (len cs) None = Some cs -> In c cs ->
  channels_within 64 128 c.
Proof.
  intros Hcs Hin.
  unfold deterministic_colours in Hcs.
  destruct (len cs <=? 0); [discriminate Hcs|].
  injection Hcs as Hcs. rewrite <- Hcs in Hin.
  apply in_map_iff in Hin as (h & <- & Hh).
  apply In_nth_error in Hh as (j & Hj).
  apply quantise_bounds.
  pose proof (hue_loop_closed_form _ 0 initial j h ltac:(lia)
                (or_introl eq_refl) Hj) as E.
  rewrite Z.add_0_l in E.
  pose proof (hue_numerator_bounds (Z.of_nat j) ltac:(lia)) as Hb.
  pose proof (Z.pow_pos_nonneg 2 (cycle_of (Z.of_nat j)) ltac:(lia)
                (cycle_of_nonneg _)) as Hpos.
  now apply (fraction_bounds h _ _ Hpos Hb E).
Qed.

Lemma colour_at_In (cs : list colour) (c : Z) :
  0 <= c < len cs -> In (colour_at cs c) cs.
Proof.
  intros [H0 Hlt]. unfold colour_at. apply nth_In. unfold len in Hlt. lia.
Qed.

(** A pixel with a channel outside 55..137 matches no colour whose
    channels lie in 64..128. *)
Lemma far_pixel_not_close (color px : colour) :
  channels_within 64 128 color -> off_palette px ->
  close_to color px = false.
Proof.
  destruct color as [[cr cg] cb], px as [[r g] b].
  unfold channels_within, close_to, off_palette. intros (H1 & H2 & H3) Hfar.
  destruct (Z.ltb_spec (Z.abs (r - cr)) 10),
    (Z.ltb_spec (Z.abs (g - cg)) 10),
    (Z.ltb_spec (Z.abs (b - cb)) 10); try reflexivity; lia.
Qed.

End ToleranceFacts.

(** X12.  With at most nine declared regions on a canonical colour
    sequence, no pixel, whatever its colour, is within tolerance of two
    different region colours: the region masks are pairwise disjoint and
    their sum never exceeds 1. *)
Theorem setup_masks_regions_disjoint :
  forall (g : Globals) (self : Processor) (img : image) (layer_count : Z),
    canonical (COLREG g) -> layer_count <= 9 ->
    exists (cs : list colour) (g' : Globals) (self' : Processor),
      setup_masks g self (Some (RGB img)) layer_count = Ret (g', self') /\
      COLREG g' = Some cs /\
      forall (c1 c2 : Z) (px : colour),
        0 <= c1 < c2 -> c2 < layer_count ->
        ~ (close (colour_at cs c1) px /\ close (colour_at cs c2) px).
Proof.
  intros g self img layer_count Hcan Hle.
  destruct (setup_masks_globals g self (RGB img) layer_count)
    as (cs & reguse & s' & Hcs & Hmax & _ & E & _).
  exists cs. eexists. eexists. split; [exact E|]. split; [reflexivity|].
  intros c1 c2 px Hc1 Hc2 [H1 H2].
  destruct (canonical_allocate (Z.max (layer_count + 1) MAXCOLREG)
              (COLREG g) ltac:(unfold MAXCOLREG; lia) Hcan)
    as (cs' & Hcs' & _ & _ & Hfresh).
  rewrite Hcs in Hcs'. injection Hcs' as <-.
  destruct fresh_9_apart as (c9 & H9 & Hapart).
  unfold MAXCOLREG in Hmax.
  rewrite (canonical_colour_at 9 cs c9 c1 Hfresh H9) in H1 by lia.
  rewrite (canonical_colour_at 9 cs c9 c2 Hfresh H9) in H2 by lia.
  pose proof (close_both_not_apart _ _ _ H1 H2) as Hnot.
  assert (Hl9 : len c9 = 9).
  { destruct (deterministic_colours_fresh 9 ltac:(lia)) as (x & Hx & Hxl).
    rewrite H9 in Hx. now injection Hx as <-. }
  assert (Hn : forall c, 0 <= c < 9 ->
                         nth_error c9 (Z.to_nat c) = Some (colour_at c9 c)).
  { intros c Hc. unfold colour_at. apply nth_error_nth'.
    unfold len in Hl9. lia. }
  rewrite (all_pairs_In _ _ Hapart (Z.to_nat c1) (Z.to_nat c2) _ _
             ltac:(lia) (Hn c1 ltac:(lia)) (Hn c2 ltac:(lia))) in Hnot.
  discriminate Hnot.
Qed.

Lemma setup_masks_regions_disjoint_witness :
  exists (cs : list colour) (g' : Globals) (self' : Processor),
    setup_masks (mkGlobals None [] false)
                (mkProcessor 512 512 1 false false [] None false false)
                (Some (RGB [[(128, 64, 64)]])) 3
    = Ret (g', self') /\
    COLREG g' = Some cs.
Proof.
  destruct (setup_masks_regions_disjoint (mkGlobals None [] false)
              (mkProcessor 512 512 1 false false [] None false false)
              [[(128, 64, 64)]] 3 I ltac:(lia))
    as (cs & g' & self' & H & Hc & _).
  exists cs, g', self'. split; assumption.
Defined.

(** X13.  From nineteen declared regions on, region masks overlap even on
    an exactly painted image: the colours of regions 9 and 18 are within
    tolerance of each other, so a pixel painted with region 18's colour
    activates both regions and lies in both masks. *)
Theorem setup_masks_cross_talk :
  forall (g : Globals) (self : Processor) (img : image) (layer_count : Z),
    canonical (COLREG g) -> 19 <= layer_count ->
    exists (cs : list colour) (g' : Globals) (self' : Processor),
      setup_masks g self (Some (RGB img)) layer_count = Ret (g', self') /\
      COLREG g' = Some cs /\
      colour_at cs 9 <> colour_at cs 18 /\
      forall px : colour,
        px = colour_at cs 18 ->
        indicator (colour_at cs 9) px = 1 /\ indicator (colour_at cs 18) px = 1 /\
        ((exists row, In row img /\ In px row) ->
         In [region_mask img (colour_at cs 9)] (regmasks self') /\
         In [region_mask img (colour_at cs 18)] (regmasks self')).
Proof.
  intros g self img layer_count Hcan Hge.
  destruct (setup_masks_globals g self (RGB img) layer_count)
    as (cs & reguse & s' & Hcs & Hmax & Hlc & E & _ & Hregs & _).
  cbn [to_rgb] in Hregs.
  exists cs. eexists. exists s'. split; [exact E|]. split; [reflexivity|].
  destruct (canonical_allocate (Z.max (layer_count + 1) MAXCOLREG)
              (COLREG g) ltac:(unfold MAXCOLREG; lia) Hcan)
    as (cs' & Hcs' & _ & _ & Hfresh).
  rewrite Hcs in Hcs'. injection Hcs' as <-.
  destruct fresh_19_close as (c19 & H19 & Hclose & Hne).
  unfold MAXCOLREG in Hmax.
  assert (E9 : colour_at cs 9 = colour_at c19 9)
    by (apply (canonical_colour_at 19); try assumption; lia).
  assert (E18 : colour_at cs 18 = colour_at c19 18)
    by (apply (canonical_colour_at 19); try assumption; lia).
  assert (Hc9 : close_to (colour_at cs 9) (colour_at cs 18) = true)
    by now rewrite E9, E18.
  pose proof (close_to_refl (colour_at cs 18)) as Hc18.
  split; [now rewrite E9, E18|].
  intros px ->. unfold indicator. rewrite Hc9, Hc18.
  split; [reflexivity|]. split; [reflexivity|].
  intros (row & Hrow & Hpx).
  assert (Hpres : forall col, close_to col (colour_at cs 18) = true ->
                              any (color_match img col) = true).
  { intros col Hcol. apply any_spec. exists row, (colour_at cs 18).
    split; [exact Hrow|]. split; [exact Hpx|]. now apply close_to_spec. }
  rewrite Hregs. split.
  - apply (in_map (fun c => [region_mask img (colour_at cs c)])).
    apply filter_In. split; [apply range_spec; lia|]. now apply Hpres.
  - apply (in_map (fun c => [region_mask img (colour_at cs c)])).
    apply filter_In. split; [apply range_spec; lia|]. now apply Hpres.
Qed.

Lemma setup_masks_cross_talk_witness :
  exists (cs : list colour) (g' : Globals) (self' : Processor),
    setup_masks (mkGlobals None [] false)
                (mkProcessor 512 512 1 false false [] None false false)
                (Some (RGB [[(128, 124, 64)]])) 19
    = Ret (g', self') /\
    COLREG g' = Some cs /\ colour_at cs 9 <> colour_at cs 18.
Proof.
  destruct (setup_masks_cross_talk (mkGlobals None [] false)
              (mkProcessor 512 512 1 false false [] None false false)
              [[(128, 124, 64)]] 19 I ltac:(lia))
    as (cs & g' & self' & H & Hc & Hne & _).
  exists cs, g', self'. repeat split; assumption.
Defined.

(** X14.  A mask image without palette colours switches the feature off:
    on a canonical colour sequence, if every pixel has a channel outside
    55..137 (white background, black, saturated strokes), ingestion finds
    no region, leaves the base mask as it was, and every hooked forward of
    that processor returns what the original forward returns. *)
Theorem blank_mask_passes_through :
  forall (Tensor Kwargs : Type) (size1 : Tensor -> Z)
         (blend : Processor -> Z -> Z -> Z -> Z -> Tensor -> Tensor ->
                  option Tensor -> outcome Tensor)
         (g : Globals) (self : Processor) (img : image) (layer_count : Z),
    canonical (COLREG g) ->
    (forall row px, In row img -> In px row -> off_palette px) ->
    exists (g' : Globals) (self' : Processor),
      setup_masks g self (Some (RGB img)) layer_count = Ret (g', self') /\
      regmasks self' = [] /\ regbase self' = regbase self /\
      active self' = true /\
      forall (module : submodule Tensor Kwargs) (orig : forward_fn Tensor Kwargs)
             (x : Tensor) (context mask : option Tensor) (kwargs : Kwargs),
        forward Tensor size1 Kwargs blend self' module orig x context mask kwargs
        = orig x context mask kwargs.
Proof.
  intros Tensor Kwargs size1 blend g self img layer_count Hcan Hoff.
  destruct (setup_masks_globals g self (RGB img) layer_count)
    as (cs & reguse & s' & Hcs & Hmax & Hlc & E & Hact & Hregs & Hbase & _).
  cbn [to_rgb] in Hregs.
  destruct (canonical_allocate (Z.max (layer_count + 1) MAXCOLREG)
              (COLREG g) ltac:(unfold MAXCOLREG; lia) Hcan)
    as (cs' & Hcs' & _ & _ & Hfresh).
  rewrite Hcs in Hcs'. injection Hcs' as <-.
  assert (Hnone : regmasks s' = []).
  { rewrite Hregs.
    rewrite (filter_ext_in _ (fun _ => false)); [now rewrite filter_false|].
    intros c Hc. apply range_spec in Hc.
    destruct (any (color_match img (colour_at cs c))) eqn:Hany; [|reflexivity].
    apply any_spec in Hany as (row & px & Hrow & Hpx & Hclose).
    apply close_to_spec in Hclose.
    rewrite far_pixel_not_close in Hclose; [discriminate Hclose | | eauto].
    apply (canonical_In_fresh cs); [exact Hfresh|].
    apply colour_at_In. lia. }
  exists (mkGlobals (Some cs) reguse (VARIANT g)), s'.
  split; [exact E|]. split; [exact Hnone|].
  split; [now apply Hbase|]. split; [exact Hact|].
  intros module orig x context mask kwargs.
  apply forward_inactive. now right.
Qed.

Lemma blank_mask_passes_through_witness :
  exists (g' : Globals) (self' : Processor),
    setup_masks (mkGlobals None [] false)
                (mkProcessor 512 512 1 false false [] None false false)
                (Some (RGB [[COLWHITE; (0, 0, 0)]])) 4
    = Ret (g', self') /\
    regmasks self' = [].
Proof.
  destruct (blank_mask_passes_through Z unit (fun t => t)
              (fun _ _ _ _ _ x _ _ => Ret x)
              (mkGlobals None [] false)
              (mkProcessor 512 512 1 false false [] None false false)
              [[COLWHITE; (0, 0, 0)]] 4 I)
    as (g' & self' & H & Hr & _).
  - intros row px [<- | []] [<- | [<- | []]]; cbn; lia.
  - exists g', self'. split; assumption.
Defined.

(** ** Attention compositor: halving, chunks and hooks *)

Section HalvingFacts.

Lemma cdiv_unique (x b q : Z) :
  0 < b -> (q - 1) * b < x <= q * b -> cdiv x b = q.
Proof.
  intros Hb Hq. pose proof (cdiv_bounds x b Hb) as Hc. nia.
Qed.

(** Two ceiling divisions in a row are one. *)
Lemma cdiv_cdiv (x a b : Z) :
  0 < a -> 0 < b -> cdiv (cdiv x a) b = cdiv x (a * b).
Proof.
  intros Ha Hb. symmetry. apply cdiv_unique; [nia|].
  pose proof (cdiv_bounds x a Ha) as H1.
  pose proof (cdiv_bounds (cdiv x a) b Hb) as H2.
  nia.
Qed.

Lemma repeat_div_loop_pow (n : nat) :
  forall x, repeat_div_loop n x = cdiv x (2 ^ Z.of_nat n).
Proof.
  induction n as [|n IH]; intros x.
  - cbn. unfold cdiv. now rewrite Z.add_simpl_r, Z.div_1_r.
  - cbn [repeat_div_loop]. rewrite IH, ceil_half_halve_up. unfold halve_up.
    rewrite cdiv_cdiv by (try apply Z.pow_pos_nonneg; lia).
    f_equal. rewrite Nat2Z.inj_succ, Z.pow_succ_r by lia. reflexivity.
Qed.

Lemma cdiv_exact (h b : Z) : 0 < b -> cdiv (h * b) b = h.
Proof. intros Hb. apply cdiv_unique; [assumption | nia]. Qed.

(** The scale of an exact power of four. *)
Lemma derive_scale_pow4 (b k : Z) :
  0 < b -> 0 <= k -> derive_scale (4 ^ k * b) b = Ret k.
Proof.
  intros Hb Hk.
  pose proof (Z.pow_pos_nonneg 4 k ltac:(lia) Hk) as Hp.
  destruct (derive_scale_bounds (4 ^ k * b) b ltac:(nia) Hb)
    as (s & -> & Hnn & Hneg).
  f_equal.
  destruct (Z_lt_le_dec s 0) as [Hlt|Hge].
  - destruct (Hneg Hlt) as [H1 _].
    pose proof (Z.pow_pos_nonneg 4 (- s) ltac:(lia) ltac:(lia)) as Hq.
    assert (4 <= 4 ^ (- s)).
    { replace 4 with (4 ^ 1) at 1 by reflexivity.
      apply Z.pow_le_mono_r; lia. }
    assert (Hb1 : b <= 4 ^ k * b) by nia.
    assert (4 * (4 ^ k * b) <= 4 ^ (- s) * (4 ^ k * b))
      by (apply Z.mul_le_mono_nonneg_r; lia).
    lia.
  - destruct (Hnn Hge) as [H1 H2].
    assert (Hks : 4 ^ k <= 4 ^ s) by nia.
    assert (Hsk : 4 ^ s < 4 ^ (k + 1)).
    { rewrite Z.pow_add_r by lia. change (4 ^ 1) with 4. nia. }
    apply Z.pow_le_mono_r_iff in Hks; [|lia|lia].
    apply Z.pow_lt_mono_r_iff in Hsk; lia.
Qed.

End HalvingFacts.

(** X15.  [_repeat_div x y] is one ceiling division: for [y >= 0] it is
    the ceiling of [x / 2^y], and for [y <= 0] it is [x] itself. *)
Theorem repeat_div_closed_form :
  forall x y : Z,
    (0 <= y -> _repeat_div x y = cdiv x (2 ^ y)) /\
    (y <= 0 -> _repeat_div x y = x).
Proof.
  intros x y. unfold _repeat_div. split; intros Hy.
  - rewrite repeat_div_loop_pow. now rewrite Z2Nat.id.
  - replace (Z.to_nat y) with 0%nat by lia. reflexivity.
Qed.

Lemma repeat_div_closed_form_witness :
  _repeat_div 520 3 = cdiv 520 (2 ^ 3) /\ _repeat_div 520 (-2) = 520.
Proof.
  split.
  - apply (repeat_div_closed_form 520 3). lia.
  - apply (repeat_div_closed_form 520 (-2)). lia.
Defined.

(** X16.  At depth [k] of a network that halves both sides [k] times, the
    derived resolution is the true one: for a base size
    [(h * 2^k) x (w * 2^k)] and [h * w] spatial tokens the result is
    [(h, w)], whose product is the token count, so the reshape of the
    attention output fits. *)
Theorem feature_resolution_exact :
  forall (processor : Processor) (h w k : Z),
    0 < h -> 0 < w -> 0 <= k ->
    height processor = h * 2 ^ k ->
    width processor = w * 2 ^ k ->
    feature_resolution processor (h * w) = Ret (h, w).
Proof.
  intros processor h w k Hh Hw Hk HH HW.
  unfold feature_resolution. rewrite HH, HW.
  replace (h * 2 ^ k * (w * 2 ^ k)) with (4 ^ k * (h * w)).
  - rewrite derive_scale_pow4 by nia. cbn [bind].
    unfold _repeat_div. rewrite !repeat_div_loop_pow, Z2Nat.id by lia.
    pose proof (Z.pow_pos_nonneg 2 k ltac:(lia) Hk).
    now rewrite !cdiv_exact.
  - change 4 with (2 * 2). rewrite Z.pow_mul_l. ring.
Qed.

Lemma feature_resolution_exact_witness :
  feature_resolution
    (mkProcessor 768 512 1 false false [] None false false) (48 * 32)
  = Ret (48, 32).
Proof.
  apply (feature_resolution_exact _ 48 32 4); try lia; reflexivity.
Defined.

(** X17.  With [num_chunks = total_tokens // 77 >= 2], every span of
    conditioning the compositor reads is a full 77-token chunk inside the
    sequence: the base span is chunk 0, the region at position [i] reads
    chunk [i + 1] when that chunk exists and otherwise the base chunk, and
    regions with chunks of their own read pairwise disjoint spans, none of
    them the base chunk. *)
Theorem region_span_in_bounds :
  forall (total_tokens i : Z),
    let num_chunks := total_tokens / TOKENSCON in
    let s := region_span num_chunks i in
    2 <= num_chunks -> 0 <= i ->
    0 <= fst s /\ snd s <= total_tokens /\ snd s - fst s = TOKENSCON /\
    snd base_span <= total_tokens /\
    (i + 1 < num_chunks -> snd base_span <= fst s) /\
    (num_chunks <= i + 1 -> s = base_span) /\
    (forall j, i < j -> j + 1 < num_chunks ->
               snd s <= fst (region_span num_chunks j)).
Proof.
  intros total_tokens i num_chunks s Hn Hi.
  assert (Hq : num_chunks * TOKENSCON <= total_tokens).
  { unfold num_chunks, TOKENSCON.
    pose proof (Z.mul_div_le total_tokens 77 ltac:(lia)). lia. }
  unfold s, region_span, base_span, TOKENSCON in *.
  destruct (Z.ltb_spec (i + 1) num_chunks); cbn [fst snd];
    repeat split; try lia; try congruence; try nia.
  all: intros j Hij Hj;
    destruct (Z.ltb_spec (j + 1) num_chunks); cbn [fst]; nia.
Qed.

Lemma region_span_in_bounds_witness :
  snd (region_span (231 / TOKENSCON) 1) <= 231 /\
  region_span (231 / TOKENSCON) 5 = base_span.
Proof.
  pose proof (region_span_in_bounds 231 1 ltac:(vm_compute; discriminate)
                ltac:(lia)) as (_ & H1 & _).
  pose proof (region_span_in_bounds 231 5 ltac:(vm_compute; discriminate)
                ltac:(lia)) as (_ & _ & _ & _ & _ & H5 & _).
  split; [exact H1 | apply H5; vm_compute; discriminate].
Defined.

Section SubstringFacts.

Local Open Scope string_scope.

Lemma prefix_spec (pat name : string) :
  String.prefix pat name = true <-> exists post, name = pat ++ post.
Proof.
  revert name. induction pat as [|a pat IH]; intros name.
  - split; [intros _; now exists name | intros _; destruct name; reflexivity].
  - destruct name as [|b name]; cbn.
    + split; [discriminate | intros (post & H); discriminate H].
    + destruct (Ascii.ascii_dec a b) as [->|Hne].
      * rewrite IH. split; intros (post & H); exists post; congruence.
      * split; [discriminate|]. intros (post & H). congruence.
Qed.

(** [contains] is Python's [pat in name]: [pat] occurs as a substring. *)
Lemma contains_spec (pat name : string) :
  contains pat name = true <-> exists pre post, name = pre ++ pat ++ post.
Proof.
  induction name as [|b name IH]; cbn [contains].
  - rewrite orb_false_r, prefix_spec. split.
    + intros (post & H). now exists "", post.
    + intros ([|c pre] & post & H); [now exists post | discriminate H].
  - rewrite orb_true_iff, prefix_spec, IH. split.
    + intros [(post & H) | (pre & post & H)].
      * now exists "", post.
      * exists (String b pre), post. cbn. now rewrite H.
    + intros ([|c pre] & post & H).
      * left. now exists post.
      * right. exists pre, post. cbn in H. congruence.
Qed.

End SubstringFacts.





(** ** The script entry points *)

Section PromptFacts.

Lemma fold_left_append {A B : Type} (f : A -> B) (l : list A) (init : list B) :
  fold_left (fun acc i => acc ++ [f i]) l init = init ++ map f l.
Proof.
  revert init. induction l as [|a l IH]; intros init; cbn.
  - now rewrite app_nil_r.
  - rewrite IH, <- app_assoc. reflexivity.
Qed.

Lemma truthy_head (s : string) :
  (if truthy s then [s] else [EmptyString]) = [s].
Proof. now destruct s. Qed.

(** The loop of [process] as a map over the layer numbers. *)
Lemma prompts_map_form (base_prompt : string) (m : prompts_map) (n : Z) :
  prompts base_prompt m n
  = base_prompt
      :: map (fun i => if truthy (get (str i) m) then get (str i) m
                       else "_"%string)
             (range_from 1 (n + 1)).
Proof.
  unfold prompts. rewrite truthy_head.
  now rewrite (fold_left_append
                 (fun i => if truthy (get (str i) m) then get (str i) m
                           else "_"%string)).
Qed.

Lemma range_from_length (lo hi : Z) :
  len (range_from lo hi) = Z.max (hi - lo) 0.
Proof.
  unfold range_from, len. rewrite length_map, length_seq. lia.
Qed.

Lemma range_from_nth_error (lo hi : Z) (k : nat) :
  (k < Z.to_nat (hi - lo))%nat ->
  nth_error (range_from lo hi) k = Some (lo + Z.of_nat k).
Proof.
  intros Hk. unfold range_from.
  rewrite nth_error_map, nth_error_seq.
  destruct (Nat.ltb_spec k (Z.to_nat (hi - lo))); [reflexivity | lia].
Qed.

Lemma prompts_length (base_prompt : string) (m : prompts_map) (n : Z) :
  len (prompts base_prompt m n) = Z.max n 0 + 1.
Proof.
  rewrite prompts_map_form.
  pose proof (range_from_length 1 (n + 1)) as H.
  unfold len in *. cbn [List.length]. rewrite length_map. lia.
Qed.

(** [" BREAK ".join] of a one-element list is the element, so the guard
    of [combined_prompt] changes nothing. *)
Lemma combined_prompt_join (base_prompt : string) (m : prompts_map) (n : Z) :
  combined_prompt (prompts base_prompt m n)
  = Ret (String.concat " BREAK " (prompts base_prompt m n)).
Proof.
  unfold combined_prompt.
  destruct (Z.ltb_spec 1 (len (prompts base_prompt m n))) as [H|H];
    [reflexivity|].
  rewrite prompts_length in H. rewrite prompts_map_form in *.
  assert (E : range_from 1 (n + 1) = []).
  { unfold range_from. replace (Z.to_nat (n + 1 - 1)) with 0%nat by lia.
    reflexivity. }
  rewrite E. reflexivity.
Qed.

Lemma actual_layer_count_nonempty (m : prompts_map) (layer_count : Z) :
  m <> [] -> actual_layer_count m layer_count = len m.
Proof. destruct m; [congruence | reflexivity]. Qed.

Lemma actual_layer_count_empty (layer_count : Z) :
  actual_layer_count [] layer_count = layer_count.
Proof.
  unfold actual_layer_count. destruct (Z.eqb_spec layer_count 0); congruence.
Qed.

End PromptFacts.



Section LoadedFacts.

Lemma lookup_of_map (k : string) (m : prompts_map) :
  lookup k (map (fun kv => (fst kv, JStr (snd kv))) m) = JStr (get k m).
Proof.
  induction m as [|[k' v] m IH]; [reflexivity|].
  cbn. now destruct (String.eqb k k').
Qed.

(** On an object of strings the loop over the loaded value is the loop
    over the map of strings. *)
Lemma layer_loop_of_map (m : prompts_map) (ids : list Z) :
  forall acc : list string,
    layer_loop (of_map m) ids (map JStr acc)
    = Ret (map JStr
             (fold_left
                (fun prompts i =>
                   let layer_text := get (str i) m in
                   prompts ++ [if truthy layer_text then layer_text
                               else "_"%string])
                ids acc)).
Proof.
  induction ids as [|i ids IH]; intros acc; [reflexivity|].
  cbn [layer_loop fold_left of_map json_get bind].
  rewrite lookup_of_map. cbn [json_truthy].
  specialize (IH (acc ++ [if truthy (get (str i) m) then get (str i) m
                          else "_"%string])).
  rewrite map_app in IH. cbn [map] in IH.
  destruct (truthy (get (str i) m)); exact IH.
Qed.

Lemma layer_loop_prompts (base_prompt : string) (m : prompts_map) (n : Z) :
  layer_loop (of_map m) (range_from 1 (n + 1))
             [JStr (if truthy base_prompt then base_prompt else EmptyString)]
  = Ret (map JStr (prompts base_prompt m n)).
Proof.
  unfold prompts. rewrite <- layer_loop_of_map.
  now destruct base_prompt.
Qed.

Lemma strings_map (l : list string) : strings (map JStr l) = Ret l.
Proof.
  induction l as [|x l IH]; [reflexivity|].
  cbn [map strings]. rewrite IH. reflexivity.
Qed.

Lemma layer_count_of_map (m : prompts_map) (layer_count : Z) :
  (if json_truthy (of_map m) then json_len (of_map m)
   else Ret (if layer_count =? 0 then 0 else layer_count))
  = Ret (actual_layer_count m layer_count).
Proof.
  destruct m as [|kv m]; [reflexivity|].
  unfold of_map, json_truthy, json_len, actual_layer_count, len.
  rewrite length_map. cbn [List.length].
  destruct (Z.eqb_spec (Z.of_nat (S (List.length m))) 0); [lia | reflexivity].
Qed.

End LoadedFacts.

Section ProcessFacts.

Variable Tensor : Type.
Variable Kwargs : Type.
Variable forge : bool.
Variable reforge : bool.
Variable decode : string -> option image.
Variable json_loads : string -> option json.

Lemma filter_range_length (f : Z -> bool) (n : Z) :
  len (filter f (range n)) <= Z.max n 0.
Proof.
  unfold len, range.
  pose proof (filter_length_le f (map Z.of_nat (seq 0 (Z.to_nat n)))) as H.
  rewrite length_map, length_seq in H. lia.
Qed.

(** [setup_masks] leaves the size and the flags of the processor as they
    are. *)
Lemma setup_masks_flags (g g' : Globals) (self self' : Processor)
      (mask_image : option mask_input) (layer_count : Z) :
  setup_masks g self mask_image layer_count = Ret (g', self') ->
  height self' = height self /\ width self' = width self /\
  batch_size self' = batch_size self /\
  is_forge self' = is_forge self /\ is_reforge self' = is_reforge self /\
  hooked self' = hooked self.
Proof.
  unfold setup_masks. destruct mask_image as [mi|].
  - destruct (detect _ _ _ _) as [[d r]|e]; cbn [bind]; [|discriminate].
    destruct (accumulate d None []) as [tm regs].
    intros H. injection H as <- <-. cbn. repeat split.
  - intros H. injection H as <- <-. repeat split.
Qed.

(** A run of [process] that gets past its three early exits, on a prompt
    dump that is empty, does not parse, or parses to an object of
    strings. *)
Lemma process_runs (g : Globals) (self : script)
      (p : sd_processing Tensor Kwargs)
      (mask_data base_prompt base_neg_prompt prompts_dump : string)
      (layer_count : Z) (mask_image : image) (m : prompts_map) :
  String.prefix "data:image" mask_data = true ->
  decode mask_data = Some mask_image ->
  load json_loads prompts_dump = of_map m ->
  let n := actual_layer_count m layer_count in
  let combined := String.concat " BREAK " (prompts base_prompt m n) in
  exists (g1 : Globals) (processor1 : Processor),
    setup_masks g (MaskRegionProcessor (p_height p) (p_width p)
                                       (p_batch_size p) forge reforge)
                (Some (RGB mask_image)) n
    = Ret (g1, processor1) /\
    process Tensor Kwargs forge reforge decode json_loads g self p true
            mask_data base_prompt base_neg_prompt prompts_dump layer_count
    = Ret (g1,
           mkScript (Some (set_hooked true processor1)) true,
           mkSd (p_height p) (p_width p) (p_batch_size p)
                (snd (hook_forwards Tensor Kwargs processor1 (sd_model p)))
                combined
                (Some (broadcast combined (all_prompts p)))
                (if truthy base_neg_prompt then base_neg_prompt
                 else negative_prompt p)
                (if truthy base_neg_prompt
                 then Some (broadcast base_neg_prompt (all_negative_prompts p))
                 else all_negative_prompts p)
                (update "MRP Prompt" (PStr (summary combined))
                   (update "MRP Regions" (PInt (n + 1))
                      (update "MRP Active" (PBool true)
                         (extra_generation_params p))))).
Proof.
  intros Hpre Hdec Hload n combined.
  destruct (setup_masks_globals
              g (MaskRegionProcessor (p_height p) (p_width p) (p_batch_size p)
                                     forge reforge)
              (RGB mask_image) n)
    as (cs & reguse & proc1 & _ & _ & _ & E & _).
  eexists. exists proc1. split; [exact E|].
  unfold process. cbn [negb].
  assert (Ht : truthy mask_data = true).
  { destruct mask_data; [discriminate Hpre | reflexivity]. }
  rewrite Ht, Hpre, Hdec. cbn [andb negb].
  rewrite Hload, layer_count_of_map. cbn [bind]. fold n.
  rewrite layer_loop_prompts. cbn [bind].
  assert (Hc : (if 1 <? len (map JStr (prompts base_prompt m n))
                then join " BREAK " (map JStr (prompts base_prompt m n))
                else Ret (if truthy base_prompt then base_prompt
                          else EmptyString))
               = Ret combined).
  { unfold join. rewrite strings_map. cbn [bind].
    pose proof (combined_prompt_join base_prompt m n) as Hj.
    unfold combined_prompt in Hj.
    replace (len (map JStr (prompts base_prompt m n)))
      with (len (prompts base_prompt m n))
      by (unfold len; now rewrite length_map).
    destruct (1 <? len (prompts base_prompt m n)); [reflexivity|].
    unfold combined. rewrite <- Hj, prompts_map_form.
    now destruct base_prompt. }
  rewrite Hc. cbn [bind]. rewrite E. cbn [bind].
  reflexivity.
Qed.


(** A loaded value that is neither a dict nor truthy ([null], [[]], [0],
    [false], an empty string) gives no count of its own; with a layer
    count of at least one the loop then asks it for [get], which only a
    dict has, outside any [try]. *)
Lemma process_without_dict (g : Globals) (self : script)
      (p : sd_processing Tensor Kwargs)
      (mask_data base_prompt base_neg_prompt prompts_dump : string)
      (layer_count : Z) (mask_image : image) :
  String.prefix "data:image" mask_data = true ->
  decode mask_data = Some mask_image ->
  json_truthy (load json_loads prompts_dump) = false ->
  (forall d, load json_loads prompts_dump <> JDict d) ->
  1 <= layer_count ->
  process Tensor Kwargs forge reforge decode json_loads g self p true
          mask_data base_prompt base_neg_prompt prompts_dump layer_count
  = Raise AttributeError.
Proof.
  intros Hpre Hdec Hfalse Hnd Hlc. unfold process. cbn [negb].
  assert (Ht : truthy mask_data = true).
  { destruct mask_data; [discriminate Hpre | reflexivity]. }
  rewrite Ht, Hpre, Hdec. cbn [andb negb]. rewrite Hfalse.
  destruct (Z.eqb_spec layer_count 0) as [H0|_]; [lia|].
  cbn [bind]. unfold range_from.
  replace (Z.to_nat (layer_count + 1 - 1))
    with (S (Z.to_nat (layer_count - 1))) by lia.
  cbn [seq map layer_loop].
  destruct (load json_loads prompts_dump) as [| | | | |d];
    try reflexivity.
  now destruct (Hnd d).
Qed.

End ProcessFacts.

(** X22.  A run of [process] on an enabled script with a decodable mask,
    whose prompt dump is empty, does not parse or parses to an object of
    strings, returns with an active, hooked processor and the joined
    prompt, and it never holds more region masks than it wrote layer
    entries into the prompt: the mask at position [i] always has the
    non-empty entry [i + 1] of the prompt list to go with it. *)
Theorem process_masks_within_prompts :
  forall (Tensor Kwargs : Type) (forge reforge : bool)
         (decode : string -> option image)
         (json_loads : string -> option json)
         (g : Globals) (self : script)
         (p : sd_processing Tensor Kwargs)
         (mask_data base_prompt base_neg_prompt prompts_dump : string)
         (layer_count : Z) (mask_image : image) (m : prompts_map),
    String.prefix "data:image" mask_data = true ->
    decode mask_data = Some mask_image ->
    load json_loads prompts_dump = of_map m ->
    let ps := prompts base_prompt m (actual_layer_count m layer_count) in
    exists (g' : Globals) (processor : Processor)
           (p' : sd_processing Tensor Kwargs),
      process Tensor Kwargs forge reforge decode json_loads g self p true
              mask_data base_prompt base_neg_prompt prompts_dump layer_count
      = Ret (g', mkScript (Some processor) true, p') /\
      active processor = true /\ hooked processor = true /\
      is_forge processor = forge /\
      prompt p' = String.concat " BREAK " ps /\
      forall i : Z,
        0 <= i < len (regmasks processor) ->
        exists text : string,
          nth_error ps (Z.to_nat (i + 1)) = Some text /\ text <> EmptyString.
Proof.
  intros Tensor Kwargs forge reforge decode json_loads g self p
         mask_data base neg dump lc img m Hpre Hdec Hload ps.
  destruct (process_runs Tensor Kwargs forge reforge decode json_loads
              g self p mask_data base neg dump lc img m Hpre Hdec Hload)
    as (g1 & proc1 & Hset & Hrun).
  destruct (setup_masks_globals
              g (MaskRegionProcessor (p_height p) (p_width p) (p_batch_size p)
                                     forge reforge)
              (RGB img) (actual_layer_count m lc))
    as (cs & reguse & proc1' & _ & _ & _ & E & Hact & Hregs & _).
  rewrite Hset in E. injection E as _ <-.
  destruct (setup_masks_flags _ _ _ _ _ _ Hset) as (_ & _ & _ & Hf & _).
  eexists. eexists. eexists. split; [exact Hrun|].
  split; [exact Hact|]. split; [reflexivity|]. split; [exact Hf|].
  split; [reflexivity|].
  intros i Hi. cbn [regmasks set_hooked] in Hi. rewrite Hregs in Hi.
  unfold len in Hi. rewrite length_map in Hi.
  pose proof (filter_range_length
                (fun c => any (color_match (to_rgb (RGB img)) (colour_at cs c)))
                (actual_layer_count m lc)) as Hle.
  unfold len in Hle.
  unfold ps. rewrite prompts_map_form.
  replace (Z.to_nat (i + 1)) with (S (Z.to_nat i)) by lia.
  cbn [nth_error]. rewrite nth_error_map, range_from_nth_error by lia.
  cbn [option_map]. eexists. split; [reflexivity|].
  destruct (get _ m); cbn [truthy]; discriminate.
Qed.

Lemma process_masks_within_prompts_witness :
  exists (g' : Globals) (processor : Processor)
         (p' : sd_processing Z unit),
    process Z unit false false
            (fun _ => Some [[(128, 64, 64); COLWHITE]])
            (fun _ => Some (JDict [("1", JStr "cat"); ("2", JStr "")]%string))
            (mkGlobals None [] false) (mkScript None false)
            (mkSd 512 512 1 (mkProcessing [] []) "" None "" None [])
            true "data:image/png;base64,AAAA" "sky" "" "dump" 7
    = Ret (g', mkScript (Some processor) true, p') /\
    prompt p' = "sky BREAK cat BREAK _"%string.
Proof.
  destruct (process_masks_within_prompts Z unit false false
              (fun _ => Some [[(128, 64, 64); COLWHITE]])
              (fun _ => Some (JDict [("1", JStr "cat"); ("2", JStr "")]%string))
              (mkGlobals None [] false) (mkScript None false)
              (mkSd 512 512 1 (mkProcessing [] []) "" None "" None [])
              "data:image/png;base64,AAAA" "sky" "" "dump" 7
              [[(128, 64, 64); COLWHITE]]
              [("1", "cat"); ("2", "")]%string eq_refl eq_refl eq_refl)
    as (g' & proc & p' & H & _ & _ & _ & Hp & _).
  exists g', proc, p'. split; [exact H | exact Hp].
Defined.



(** X24.  The brush and the ingestion agree on colours: on a canonical
    colour sequence, the only colour [change_color] asks a brush for, for
    layer [index], is the colour [setup_masks] looks for as region
    [index]; the result is the brush update Gradio builds for it, or the
    empty update when Gradio raises; and every negative index gives the
    empty update. *)
Theorem brush_colour_is_region_colour :
  forall (Update : Type) (gr_update : Update)
         (image_editor_update : string -> outcome Update)
         (g : Globals) (self : Processor) (mask_image : mask_input)
         (layer_count index : Z),
    canonical (COLREG g) ->
    0 <= index < layer_count ->
    exists (cs : list colour) (g' : Globals) (self' : Processor),
      setup_masks g self (Some mask_image) layer_count = Ret (g', self') /\
      COLREG g' = Some cs /\
      change_color Update gr_update image_editor_update index
      = Ret (match image_editor_update (html_color (colour_at cs index)) with
             | Ret u => u
             | Raise _ => gr_update
             end) /\
      forall k : Z,
        k < 0 ->
        change_color Update gr_update image_editor_update k = Ret gr_update.
Proof.
  intros Update gr_update ieu g self mi lc index Hcan Hidx.
  destruct (setup_masks_globals g self mi lc)
    as (cs & reguse & s' & Hcs & _ & Hlen & E & _).
  destruct (canonical_allocate (Z.max (lc + 1) MAXCOLREG) (COLREG g)
              ltac:(unfold MAXCOLREG; lia) Hcan)
    as (cs' & Hcs' & _ & _ & Hfresh).
  rewrite Hcs in Hcs'. injection Hcs' as <-.
  exists cs. eexists. eexists. split; [exact E|]. split; [reflexivity|].
  split.
  - unfold change_color.
    destruct (deterministic_colours_fresh (index + 1) ltac:(lia))
      as (cm & Hcm & Hlm).
    rewrite Hcm. destruct (Z.eqb_spec (len cm) 0) as [H0|_]; [lia|].
    rewrite subscript_minus_one by lia. cbn [bind].
    assert (Hcol : colour_at cm (len cm - 1) = colour_at cs index).
    { rewrite Hlm. replace (index + 1 - 1) with index by lia.
      symmetry. apply (canonical_colour_at (index + 1)); try assumption; lia. }
    rewrite Hcol. now destruct (ieu (html_color (colour_at cs index))).
  - intros k Hk. unfold change_color, deterministic_colours.
    destruct (Z.leb_spec (k + 1) 0); [reflexivity | lia].
Qed.

Lemma brush_colour_is_region_colour_witness :
  let ieu := fun c : string =>
               if String.eqb c "#408080" then Ret (Some c)
               else Raise ValueError in
  exists (cs : list colour) (g' : Globals) (self' : Processor),
    setup_masks (mkGlobals None [] false)
                (mkProcessor 512 512 1 false false [] None false false)
                (Some (RGB [[COLWHITE]])) 3
    = Ret (g', self') /\
    COLREG g' = Some cs /\
    change_color (option string) None ieu 1 = Ret (Some "#408080"%string) /\
    change_color (option string) None ieu 2 = Ret None.
Proof.
  intros ieu.
  destruct (brush_colour_is_region_colour (option string) None ieu
              (mkGlobals None [] false)
              (mkProcessor 512 512 1 false false [] None false false)
              (RGB [[COLWHITE]]) 3 1 I ltac:(lia))
    as (cs & g' & self' & H & Hc & _ & _).
  exists cs, g', self'. split; [exact H|]. split; [exact Hc|].
  split; reflexivity.
Defined.
